(** * eixx: atoms, ports and the mailbox dispatcher

    A shallow embedding of the parts of eixx that the specification makes
    claims about:

    - [eixx/marshal/endian.hpp]: big-endian stores and loads at a cursor;
    - [eixx/marshal/atom.hpp]: atoms, their comparison operators, their
      external encoding and [make_node_name];
    - [eixx/marshal/port.hpp]: ports, their accessors and ordering;
    - [eixx/connect/basic_otp_mailbox.hxx]: [close], [break_links],
      [do_deliver] and the handler wrappers of [async_receive] and
      [async_match].

    C++ exceptions and out-of-bounds memory accesses are explicit outcomes;
    the process-wide atom table and the node a mailbox belongs to are passed
    around as explicit state. *)

From Stdlib Require Import ZArith Lia List.
From Stdlib.Strings Require Import Byte String.
From stdpp Require Import base decidable option list gmap sets.

Local Open Scope Z_scope.

(** ** Outcomes of C++ code *)

(** The exceptions the modelled code throws or catches.  All of them derive
    from [std::exception] in the library ([eterm_exception] and
    [std::runtime_error]). *)
Inductive exn : Type :=
| err_bad_argument (msg : string)
| err_decode_exception (msg : string) (pos : nat)
| err_wrong_type (msg : string)
| runtime_error (msg : string).

(** A computation returns, throws, or runs into undefined behaviour (a read
    or write outside the buffer it was given). *)
Inductive outcome (A : Type) : Type :=
| Ret (a : A)
| Throw (e : exn)
| Undef.
Arguments Ret {A} a.
Arguments Throw {A} e.
Arguments Undef {A}.

#[global] Instance outcome_ret : MRet outcome := fun A a => Ret a.

#[global] Instance outcome_bind : MBind outcome := fun A B k m =>
  match m with
  | Ret a => k a
  | Throw e => Throw e
  | Undef => Undef
  end.

(** ** Bytes *)

#[global] Instance byte_eq_dec : EqDecision byte := Byte.byte_eq_dec.

Definition byte_to_Z (b : byte) : Z := Z.of_N (Byte.to_N b).

(** Conversion to [uint8_t]: the value modulo 256. *)
Definition Z_to_byte (z : Z) : byte :=
  match Byte.of_N (Z.to_N (z mod 256)) with
  | Some b => b
  | None => x00
  end.

Definition NUL : byte := x00.

(** ** endian.hpp *)

(** [store_be<T>(s, n)] for a [T] of [w] bytes: the [w] low-order bytes of
    [n], most significant first. *)
Fixpoint be_bytes (w : nat) (n : Z) : list byte :=
  match w with
  | O => []
  | S w' => Z_to_byte (n / 256 ^ Z.of_nat w') :: be_bytes w' n
  end.

(** [cast_be<T>(s)]: the big-endian value of the bytes at [s]. *)
Definition cast_be (bs : list byte) : Z :=
  fold_left (fun acc b => acc * 256 + byte_to_Z b) bs 0.

(** A [char*] into a buffer: the buffer's contents and an offset. Writing or
    reading past the end of the buffer is undefined behaviour. *)
Definition store_at (buf : list byte) (pos : nat) (bs : list byte)
  : outcome (list byte) :=
  if decide (pos + length bs <= length buf)%nat
  then Ret (take pos buf ++ bs ++ drop (pos + length bs) buf)
  else Undef.

Definition load_at (buf : list byte) (pos n : nat) : outcome (list byte) :=
  if decide (pos + n <= length buf)%nat
  then Ret (take n (drop pos buf))
  else Undef.

(** [put_be(s, n)]: store, then [s += sizeof(T)]. *)
Definition put_be (w : nat) (buf : list byte) (s : nat) (n : Z)
  : outcome (list byte * nat) :=
  buf' ← store_at buf s (be_bytes w n);
  Ret (buf', (s + w)%nat).

(** [get_be(s, n)]: load, then [s += sizeof(T)]. *)
Definition get_be (w : nat) (buf : list byte) (s : nat) : outcome (Z * nat) :=
  bs ← load_at buf s w;
  Ret (cast_be bs, (s + w)%nat).

Definition put8 := put_be 1.
Definition put16be := put_be 2.
Definition put32be := put_be 4.
Definition put64be := put_be 8.

Definition get8 := get_be 1.
Definition get16be := get_be 2.
Definition get32be := get_be 4.
Definition get64be := get_be 8.

(** [memmove(s, src, len)] into the buffer at [s]. *)
Definition memmove (buf : list byte) (s : nat) (src : list byte) (len : nat)
  : outcome (list byte) :=
  if decide (len <= length src)%nat
  then store_at buf s (take len src)
  else Undef.

(** ** The atom table (util/atom_table.hpp) *)

(** Constants of [ei.h]. *)
Definition ERL_ATOM_EXT : Z := 100.
Definition ERL_SMALL_ATOM_EXT : Z := 115.
Definition MAXATOMLEN : nat := 256.

(** Modelled from the spec: [MAXNODELEN] comes from [ei.h], which is not part
    of the sources at hand; the data model bounds a node name by 255 bytes. *)
Definition MAXNODELEN : nat := 255.

(** Modelled from the spec: [util/atom_table.hpp] is not part of the sources
    at hand.  The table is a fixed-capacity interning store of byte strings
    of length 0..255; index 0 is reserved for the empty atom and entries are
    never reclaimed. *)
Record atom_table : Type := mk_atom_table {
  capacity : nat;
  m_atoms : list (list byte)
}.

(** Modelled from the spec: a new table holds the empty atom at index 0. *)
Definition atom_table_new (cap : nat) : atom_table :=
  {| capacity := cap; m_atoms := [[]] |}.

(** Modelled from the spec: [get(index)] returns the interned bytes.  An
    index out of range is a programming error; indices handed out by
    [lookup] are always in range. *)
Definition atom_table_get (t : atom_table) (i : nat) : list byte :=
  default [] (m_atoms t !! i).

(** Modelled from the spec: [lookup(bytes)] returns the existing index if
    the bytes were interned before, otherwise allocates the next index and
    stores the bytes.  Empty input returns index 0 without allocating; bytes
    longer than 255 fail with [BadArgument]; a full table fails with
    [TableFull]. *)
Definition atom_table_lookup (t : atom_table) (s : list byte)
  : outcome (nat * atom_table) :=
  if decide (s = []) then Ret (0%nat, t)
  else if decide (255 < length s)%nat
  then Throw (err_bad_argument "Atom size is too long!")
  else match list_find (fun x => x = s) (m_atoms t) with
       | Some (i, _) => Ret (i, t)
       | None =>
           if decide (capacity t <= length (m_atoms t))%nat
           then Throw (runtime_error "Atom hash table is full!")
           else Ret (length (m_atoms t),
                     {| capacity := capacity t; m_atoms := m_atoms t ++ [s] |})
       end.

(** The invariants of the data model: index 0 is the empty atom, distinct
    indices map to distinct byte strings, every entry has at most 255
    bytes. *)
Record atom_table_wf (t : atom_table) : Prop := {
  wf_empty : m_atoms t !! 0%nat = Some [];
  wf_nodup : NoDup (m_atoms t);
  wf_short : Forall (fun s => (length s <= 255)%nat) (m_atoms t)
}.

(** ** atom.hpp *)

Record atom : Type := mk_atom { m_index : nat }.

#[global] Instance atom_eq_dec : EqDecision atom.
Proof. solve_decision. Defined.

(** [atom()]: the empty atom. *)
Definition atom_null : atom := {| m_index := 0 |}.

(** [atom(const std::string& s)] and [atom(const char* s, size_t n)]. *)
Definition atom_of_string (t : atom_table) (s : list byte)
  : outcome (atom * atom_table) :=
  '(i, t') ← atom_table_lookup t s;
  Ret ({| m_index := i |}, t').

(** [to_string()], [c_str()] (the bytes, which a NUL follows in memory),
    [size()], [length()], [empty()] and [index()]. *)
Definition to_string (t : atom_table) (a : atom) : list byte :=
  atom_table_get t (m_index a).
Definition atom_size (t : atom_table) (a : atom) : nat :=
  length (to_string t a).
Definition atom_length := atom_size.
Definition atom_empty (a : atom) : bool := bool_decide (m_index a = 0%nat).
Definition index (a : atom) : nat := m_index a.

Definition atom_valid (t : atom_table) (a : atom) : Prop :=
  (m_index a < length (m_atoms t))%nat.

(** [strcmp] of libc on two NUL-terminated strings, given by their bytes
    before the terminator that follows them in memory: the end of the list
    reads as NUL.  Characters compare as [unsigned char]; only the sign of
    the result is specified. *)
Fixpoint strcmp (a b : list byte) {struct a} : Z :=
  let c1 := hd NUL a in
  let c2 := hd NUL b in
  if decide (c1 = c2) then
    match a with
    | [] => 0
    | x :: a' => if decide (x = NUL) then 0 else strcmp a' (tl b)
    end
  else if byte_to_Z c1 <? byte_to_Z c2 then -1 else 1.

(** The comparison operators of [atom]. *)
Definition atom_eq (a rhs : atom) : bool :=
  bool_decide (m_index a = m_index rhs).
Definition atom_ne (a rhs : atom) : bool :=
  negb (bool_decide (m_index a = m_index rhs)).
Definition atom_eq_cstr (t : atom_table) (a : atom) (rhs : list byte) : bool :=
  strcmp (to_string t a) rhs =? 0.
Definition atom_lt (t : atom_table) (a rhs : atom) : bool :=
  strcmp (to_string t a) (to_string t rhs) <? 0.

Definition compare (t : atom_table) (a rhs : atom) : Z :=
  if decide (m_index a = m_index rhs) then 0
  else strcmp (to_string t a) (to_string t rhs).

(** [encode_size()]. *)
Definition encode_size (t : atom_table) (a : atom) : nat :=
  (3 + atom_length t a)%nat.

(** [encode(buf, idx, size)], where [size] is the length of [buf].  The
    result is the buffer and the cursor after the call. *)
Definition encode (t : atom_table) (a : atom) (buf : list byte) (idx : nat)
  : outcome (list byte * nat) :=
  let s := idx in
  let s0 := s in
  let len := Nat.min MAXATOMLEN (atom_length t a) in
  '(buf, s) ← put8 buf s ERL_ATOM_EXT;
  '(buf, s) ← put16be buf s (Z.of_nat len);
  buf ← memmove buf s (to_string t a) len;
  let s := (s + len)%nat in
  Ret (buf, (idx + (s - s0))%nat).

(** [atom(const char* a_buf, int& idx, size_t a_size)]: decode an atom at
    [idx].  The result is the atom, the cursor and the atom table after the
    call. *)
Definition atom_decode (t : atom_table) (a_buf : list byte) (idx : nat)
  : outcome (atom * nat * atom_table) :=
  let s := idx in
  let s0 := s in
  '(tag, s) ← get8 a_buf s;
  '(len, s) ←
    (if decide (tag = ERL_ATOM_EXT) then get16be a_buf s
     else if decide (tag = ERL_SMALL_ATOM_EXT) then get8 a_buf s
     else Throw (err_decode_exception "Error decoding atom" idx));
  let len := Z.to_nat len in
  str ← load_at a_buf s len;
  '(i, t') ← atom_table_lookup t str;
  Ret ({| m_index := i |}, (idx + (s + len - s0))%nat, t').

(** [detail::check_node_length(len)]. *)
Definition check_node_length (len : nat) : outcome unit :=
  if decide (MAXNODELEN < len)%nat
  then Throw (err_bad_argument "Node name too long!")
  else if decide (len = 0%nat)
  then Throw (err_bad_argument "Empty node name")
  else Ret tt.

(** [std::string::npos] and [std::string::find(char)]: the position of the
    first occurrence, or [npos]. *)
Definition npos : Z := 2 ^ 64 - 1.

Definition string_find (s : list byte) (c : byte) : Z :=
  match list_find (fun x => x = c) s with
  | Some (i, _) => Z.of_nat i
  | None => npos
  end.

Definition AT_SIGN : byte := x40.

(** [make_node_name(s)].  [!s.find('@')] converts the position to [bool]:
    it is true exactly when the position is 0. *)
Definition make_node_name (t : atom_table) (s : list byte)
  : outcome (atom * atom_table) :=
  if string_find s AT_SIGN =? 0
  then Throw (err_bad_argument "Invalid node name")
  else
    _ ← check_node_length (length s);
    atom_of_string t s.

(** ** port.hpp *)

(** Conversion of an [int] to [uint8_t]. *)
Definition to_uint8 (z : Z) : Z := z mod 256.

(** [strlen] on the bytes at a [const char*]; the end of the list reads as
    the terminating NUL. *)
Fixpoint strlen (p : list byte) : nat :=
  match p with
  | [] => 0
  | c :: p' => if decide (c = NUL) then 0 else S (strlen p')
  end.

Module port.

Record port_blob : Type := mk_port_blob {
  blob_creation : Z;   (* uint8_t *)
  blob_id : Z;         (* int *)
  blob_node : atom
}.

(** A port is the pointer [m_blob]; [None] is [nullptr].  The reference
    count of the blob is not modelled. *)
Definition t : Type := option port_blob.

(** [port()]. *)
Definition null : t := None.

(** [init(node, id, creation, alloc)], with [creation] a [uint8_t]. *)
Definition init (node : atom) (id : Z) (creation : Z) : t :=
  Some {| blob_creation := to_uint8 (Z.land creation 0x03);
          blob_id := Z.land id 0x0fffffff;
          blob_node := node |}.

(** [port(const char* node, const int id, const int creation)]. *)
Definition of_cstr (tbl : atom_table) (node : list byte) (id creation : Z)
  : outcome (t * atom_table) :=
  let n := strlen node in
  _ ← check_node_length n;
  '(l_node, tbl') ← atom_of_string tbl (take n node);
  Ret (init l_node id (to_uint8 creation), tbl').

(** [port(const atom& node, const int id, const int creation)]. *)
Definition of_atom (tbl : atom_table) (node : atom) (id creation : Z)
  : outcome t :=
  _ ← check_node_length (atom_size tbl node);
  Ret (init node id (to_uint8 creation)).

(** The accessors [node()], [id()] and [creation()]. *)
Definition node (p : t) : atom :=
  match p with Some b => blob_node b | None => atom_null end.
Definition id (p : t) : Z :=
  match p with Some b => blob_id b | None => 0 end.
Definition creation (p : t) : Z :=
  match p with Some b => blob_creation b | None => 0 end.

(** [operator==]. *)
Definition eq (p q : t) : bool :=
  (id p =? id q) && atom_eq (node p) (node q) && (creation p =? creation q).

(** [operator<]. *)
Definition lt (tbl : atom_table) (p rhs : t) : bool :=
  let n := compare tbl (node p) (node rhs) in
  if 0 <? n then true
  else if n <? 0 then false
  else if id p <? id rhs then true
  else if id rhs <? id p then false
  else if creation p <? creation rhs then true
  else if creation rhs <? creation p then false
  else false.

(** [encode_size()]. *)
Definition encode_size (tbl : atom_table) (p : t) : nat :=
  (9 + atom_size tbl (node p))%nat.

End port.

(** ** epid.hpp and ref.hpp *)

(** Modelled from the spec: [epid.hpp] is not part of the sources at hand.
    A pid is (node atom, 28-bit id, 32-bit serial, 2-bit creation); its
    creation is reduced modulo 4 and its id masked to the low 28 bits at
    construction. *)
Record epid : Type := mk_epid {
  pid_node : atom;
  pid_id : Z;
  pid_serial : Z;
  pid_creation : Z
}.

(** Modelled from the spec: the constructor of a pid from its components,
    missing from the sources at hand like the rest of [epid.hpp]. *)
Definition epid_init (node : atom) (id serial creation : Z) : epid :=
  {| pid_node := node;
     pid_id := Z.land id 0x0fffffff;
     pid_serial := serial mod 2 ^ 32;
     pid_creation := creation mod 4 |}.

(** Modelled from the spec: [ref.hpp] is not part of the sources at hand.
    A reference is (node atom, 1..3 32-bit ids, 2-bit creation). *)
Record ref : Type := mk_ref {
  ref_node : atom;
  ref_ids : list Z;
  ref_creation : Z
}.

#[global] Instance atom_countable : Countable atom.
Proof. apply (inj_countable' m_index mk_atom). by intros []. Defined.

#[global] Instance epid_eq_dec : EqDecision epid.
Proof. solve_decision. Defined.

#[global] Instance epid_countable : Countable epid.
Proof.
  apply (inj_countable'
           (fun p => (pid_node p, pid_id p, pid_serial p, pid_creation p))
           (fun '(n, i, s, c) => mk_epid n i s c)).
  by intros [].
Defined.

#[global] Instance ref_eq_dec : EqDecision ref.
Proof. solve_decision. Defined.

#[global] Instance ref_countable : Countable ref.
Proof.
  apply (inj_countable'
           (fun r => (ref_node r, ref_ids r, ref_creation r))
           (fun '(n, i, c) => mk_ref n i c)).
  by intros [].
Defined.

(** ** basic_otp_mailbox.hxx *)

Section mailbox.

(** The terms carried as payloads and exit reasons ([eterm<Alloc>]). *)
Context {eterm : Type}.

(** Modelled from the spec: [transport_msg.hpp] is not part of the sources
    at hand.  The control types are those the dispatcher and the spec
    name, with [SEND] and [REG_SEND] standing for the rest. *)
Inductive transport_msg_type : Type :=
| SEND | REG_SEND | LINK | UNLINK | EXIT | EXIT2
| MONITOR_P | DEMONITOR_P | MONITOR_P_EXIT
| SEND_TT | EXIT_TT | REG_SEND_TT | EXIT2_TT.

(** Modelled from the spec: a transport message is an envelope with a
    control type, sender and recipient addresses, an optional reference
    and a payload.  [m_sender_pid], [m_recipient_pid] and [m_ref] hold
    what the accessor does on this message: throw ([inl]) or return the
    field ([inr]). *)
Record transport_msg : Type := mk_transport_msg {
  type : transport_msg_type;
  m_sender_pid : exn + epid;
  m_recipient_pid : exn + epid;
  m_ref : exn + ref;
  msg : eterm;
  error_flag : bool
}.

Definition accessor {A} (r : exn + A) : outcome A :=
  match r with
  | inl e => Throw e
  | inr a => Ret a
  end.

Definition sender_pid (m : transport_msg) : outcome epid :=
  accessor (m_sender_pid m).
Definition recipient_pid (m : transport_msg) : outcome epid :=
  accessor (m_recipient_pid m).
Definition get_ref (m : transport_msg) : outcome ref :=
  accessor (m_ref m).

Definition set_error_flag (m : transport_msg) : transport_msg :=
  {| type := type m; m_sender_pid := m_sender_pid m;
     m_recipient_pid := m_recipient_pid m; m_ref := m_ref m;
     msg := msg m; error_flag := true |}.

(** Modelled from the spec: the node is an external collaborator that
    offers [send_exit], [send_monitor_exit] and [close_mailbox].  The model
    records the calls it receives; [send_fails] tells which sends throw. *)
Inductive node_call : Type :=
| call_send_exit (from to : epid) (reason : eterm)
| call_send_monitor_exit (from to : epid) (r : ref) (reason : eterm)
| call_close_mailbox (mbox : epid).

Record otp_node : Type := mk_otp_node {
  calls : list node_call;
  send_fails : node_call -> bool
}.

Definition node_call_ (n : otp_node) (c : node_call) : otp_node :=
  {| calls := calls n ++ [c]; send_fails := send_fails n |}.

(** A call that may throw: the node after the call, and the exception if
    one was thrown. *)
Definition node_send (n : otp_node) (c : node_call) : otp_node * option exn :=
  (node_call_ n c,
   if send_fails n c then Some (runtime_error "send failed") else None).

Definition send_exit (n : otp_node) (from to : epid) (reason : eterm) :=
  node_send n (call_send_exit from to reason).
Definition send_monitor_exit (n : otp_node) (from to : epid) (r : ref)
    (reason : eterm) :=
  node_send n (call_send_monitor_exit from to r reason).
Definition close_mailbox (n : otp_node) (mbox : epid) : otp_node :=
  node_call_ n (call_close_mailbox mbox).

(** [try { c } catch(...) {}]: the effects of [c] up to the throw stay,
    the exception is dropped. *)
Definition try_catch_all (r : otp_node * option exn) : otp_node := r.1.

(** Modelled from the spec: the class declaration
    ([basic_otp_mailbox.hpp]) is not part of the sources at hand.  The
    members are those the member functions use: the pid of the mailbox, its
    node, its registered name, the set of linked pids, the map from monitor
    reference to pid, the freed timestamp and the queue.  [m_time_freed] is
    the count of the time point (0 while the mailbox is live); [m_queue]
    holds the queued messages, oldest first. *)
Record mailbox : Type := mk_mailbox {
  self : epid;
  m_node : otp_node;
  m_name : atom;
  m_links : gset epid;
  m_monitors : gmap ref epid;
  m_time_freed : Z;
  m_queue : list transport_msg
}.

Definition set_node (mb : mailbox) (n : otp_node) : mailbox :=
  {| self := self mb; m_node := n; m_name := m_name mb;
     m_links := m_links mb; m_monitors := m_monitors mb;
     m_time_freed := m_time_freed mb; m_queue := m_queue mb |}.
Definition set_name (mb : mailbox) (a : atom) : mailbox :=
  {| self := self mb; m_node := m_node mb; m_name := a;
     m_links := m_links mb; m_monitors := m_monitors mb;
     m_time_freed := m_time_freed mb; m_queue := m_queue mb |}.
Definition set_links (mb : mailbox) (l : gset epid) : mailbox :=
  {| self := self mb; m_node := m_node mb; m_name := m_name mb;
     m_links := l; m_monitors := m_monitors mb;
     m_time_freed := m_time_freed mb; m_queue := m_queue mb |}.
Definition set_monitors (mb : mailbox) (m : gmap ref epid) : mailbox :=
  {| self := self mb; m_node := m_node mb; m_name := m_name mb;
     m_links := m_links mb; m_monitors := m;
     m_time_freed := m_time_freed mb; m_queue := m_queue mb |}.
Definition set_time_freed (mb : mailbox) (tm : Z) : mailbox :=
  {| self := self mb; m_node := m_node mb; m_name := m_name mb;
     m_links := m_links mb; m_monitors := m_monitors mb;
     m_time_freed := tm; m_queue := m_queue mb |}.
Definition set_queue (mb : mailbox) (q : list transport_msg) : mailbox :=
  {| self := self mb; m_node := m_node mb; m_name := m_name mb;
     m_links := m_links mb; m_monitors := m_monitors mb;
     m_time_freed := m_time_freed mb; m_queue := q |}.

(** [m_queue.push_back(a_msg)] and [m_queue->reset()]. *)
Definition push_back (mb : mailbox) (a_msg : transport_msg) : mailbox :=
  set_queue mb (m_queue mb ++ [a_msg]).
Definition reset (mb : mailbox) : mailbox := set_queue mb [].

(** [std::map::insert]: an existing key keeps its value. *)
Definition map_insert (r : ref) (p : epid) (m : gmap ref epid)
  : gmap ref epid :=
  match m !! r with
  | Some _ => m
  | None => <[r := p]> m
  end.

(** [break_links(a_reason)].  Each loop visits every element of its
    container once. *)
Definition break_links (mb : mailbox) (a_reason : eterm) : mailbox :=
  let n :=
    foldl (fun n it => try_catch_all (send_exit n (self mb) it a_reason))
          (m_node mb) (elements (m_links mb)) in
  let n :=
    foldl (fun n it =>
             try_catch_all
               (send_monitor_exit n (self mb) it.2 it.1 a_reason))
          n (map_to_list (m_monitors mb)) in
  let mb := set_node mb n in
  let mb := if decide (m_links mb = ∅) then mb else set_links mb ∅ in
  let mb := if decide (m_monitors mb = ∅) then mb else set_monitors mb ∅ in
  mb.

(** [close(a_reason, a_reg_remove)]; [now] is the count that
    [std::chrono::system_clock::now()] returns. *)
Definition close (mb : mailbox) (now : Z) (a_reason : eterm)
    (a_reg_remove : bool) : mailbox :=
  let mb := set_time_freed mb now in
  let mb := reset mb in
  let mb :=
    if a_reg_remove then set_node mb (close_mailbox (m_node mb) (self mb))
    else mb in
  let mb := break_links mb a_reason in
  set_name mb atom_null.

(** The events a handler wrapper causes: calls of the user's handler, of
    the timeout handler and of the pattern matcher, and the deletion of
    the message. *)
Inductive wrapper_event : Type :=
| ev_handler (a_msg : option transport_msg)
| ev_on_timeout
| ev_match (m : eterm)
| ev_delete (a_msg : transport_msg).

(** The lambda that [async_receive] hands to [m_queue->async_dequeue].
    [a_msg] is the message pointer ([None] for null), [ec] is true when an
    error code is set.  The result is the value returned to the queue and
    the events in the order they happen. *)
Definition async_receive_handler (mb : mailbox)
    (h : mailbox -> option transport_msg -> bool)
    (a_msg : option transport_msg) (ec : bool) : bool * list wrapper_event :=
  if m_time_freed mb =? 0 then (false, [])
  else if ec then (h mb None, [ev_handler None])
  else (h mb a_msg,
        ev_handler a_msg ::
          match a_msg with Some m => [ev_delete m] | None => [] end).

(** The lambda that [async_match] hands to [m_queue->async_dequeue]. *)
Definition async_match_handler (mb : mailbox)
    (a_msg : option transport_msg) (ec : bool) : bool * list wrapper_event :=
  if m_time_freed mb =? 0 then (false, [])
  else if ec then (false, [ev_on_timeout])
  else (true,
        match a_msg with
        | Some m => [ev_match (msg m); ev_delete m]
        | None => []
        end).

(** The body of the [try] block of [do_deliver].  [BOOST_ASSERT] states a
    precondition and expands to nothing under [NDEBUG]; it is left out.
    In every case the accessor that may throw is evaluated before the
    mailbox is changed, so the state at a throw is the state at entry. *)
Definition dispatch (mb : mailbox) (a_msg : transport_msg)
  : outcome mailbox :=
  match type a_msg with
  | LINK =>
      p ← sender_pid a_msg;
      Ret (set_links mb ({[p]} ∪ m_links mb))
  | UNLINK =>
      p ← sender_pid a_msg;
      Ret (set_links mb (m_links mb ∖ {[p]}))
  | MONITOR_P =>
      r ← get_ref a_msg;
      p ← sender_pid a_msg;
      Ret (set_monitors mb (map_insert r p (m_monitors mb)))
  | DEMONITOR_P =>
      r ← get_ref a_msg;
      Ret (set_monitors mb (delete r (m_monitors mb)))
  | MONITOR_P_EXIT =>
      r ← get_ref a_msg;
      Ret (push_back (set_monitors mb (delete r (m_monitors mb))) a_msg)
  | EXIT2 | EXIT2_TT =>
      p ← sender_pid a_msg;
      Ret (push_back (set_links mb (m_links mb ∖ {[p]})) a_msg)
  | _ => Ret (push_back mb a_msg)
  end.

(** [do_deliver(a_msg)]: the [try] block, and the handler of
    [catch (std::exception& e)]. *)
Definition do_deliver (mb : mailbox) (a_msg : transport_msg)
  : outcome mailbox :=
  match dispatch mb a_msg with
  | Ret mb' => Ret mb'
  | Throw e => Ret (push_back mb (set_error_flag a_msg))
  | Undef => Undef
  end.

End mailbox.

Arguments transport_msg : clear implicits.
Arguments node_call : clear implicits.
Arguments otp_node : clear implicits.
Arguments mailbox : clear implicits.
Arguments wrapper_event : clear implicits.

(** ** Definitions for the statements and concrete inputs *)

(** The order the specification names: lexicographic over the bytes, a byte
    being an unsigned number. *)
Fixpoint lex_lt (a b : list byte) : bool :=
  match a, b with
  | _, [] => false
  | [], _ :: _ => true
  | x :: a', y :: b' =>
      if byte_to_Z x <? byte_to_Z y then true
      else if decide (x = y) then lex_lt a' b'
      else false
  end.

(** Two byte strings that differ only after an embedded NUL byte. *)
Definition bytes_a0b : list byte := [x61; x00; x62].


(** Exactly one of three tests holds. *)
Definition exactly_one (a b c : bool) : Prop :=
  (a = true /\ b = false /\ c = false)
  \/ (a = false /\ b = true /\ c = false)
  \/ (a = false /\ b = false /\ c = true).


(** The bytes [encode] emits for an atom: the tag, the length on two bytes,
    the bytes of the atom. *)
Definition atom_ext (t : atom_table) (a : atom) : list byte :=
  be_bytes 1 ERL_ATOM_EXT
  ++ be_bytes 2 (Z.of_nat (atom_length t a))
  ++ to_string t a.

Definition bytes_abc : list byte := [x61; x62; x63].

Definition bytes_abd : list byte := [x61; x62; x64].
Definition bytes_abc_fc12 : list byte :=
  [x61; x62; x63; x40; x66; x63; x31; x32].

Definition table_abc : atom_table :=
  {| capacity := 16; m_atoms := [[]; bytes_abc] |}.
Definition table_abd : atom_table :=
  {| capacity := 16; m_atoms := [[]; bytes_abc; bytes_abd] |}.
Definition table_fc12 : atom_table :=
  {| capacity := 16; m_atoms := [[]; bytes_abc_fc12] |}.

Definition port_fc12 : port.t := port.init (mk_atom 1) 1 (to_uint8 4).
Definition port_abc : port.t := port.init (mk_atom 1) 1 (to_uint8 0).
Definition port_abd : port.t := port.init (mk_atom 2) 1 (to_uint8 0).

Definition pid_x : epid := mk_epid (mk_atom 1) 1 0 0.
Definition pid_y : epid := mk_epid (mk_atom 1) 2 0 0.
Definition ref_r : ref := mk_ref (mk_atom 1) [7] 0.

(** A node on which every send throws. *)
Definition node_down : otp_node nat :=
  {| calls := []; send_fails := fun _ => true |}.

Definition mbox_x : mailbox nat :=
  {| self := pid_x; m_node := node_down; m_name := mk_atom 2;
     m_links := {[pid_y]}; m_monitors := {[ref_r := pid_y]};
     m_time_freed := 0; m_queue := [] |}.

(** A [LINK] message whose sender is not a pid. *)
Definition msg_no_sender : transport_msg nat :=
  mk_transport_msg LINK (inl (err_wrong_type "sender")) (inr pid_x)
    (inl (err_wrong_type "ref")) 0%nat false.

(** ** Further members of atom.hpp *)

(** The C string at a [const char*]: the bytes before the first NUL. *)
Definition cstr (p : list byte) : list byte := take (strlen p) p.

(** [atom(const char* s)]: interns [std::string(s)]. *)
Definition atom_of_cstr (t : atom_table) (s : list byte)
  : outcome (atom * atom_table) :=
  atom_of_string t (cstr s).

(** [operator!=] on a [const char*]. *)
Definition atom_ne_cstr (t : atom_table) (a : atom) (rhs : list byte) : bool :=
  negb (atom_eq_cstr t a rhs).

(** The value of a plain [char]; [signed] tells whether [char] is a signed
    type on the target. *)
Definition char_value (signed : bool) (c : byte) : Z :=
  if signed && (128 <=? byte_to_Z c) then byte_to_Z c - 256
  else byte_to_Z c.

Definition SPACE : byte := x20.
Definition QUOTE : byte := x27.
Definition LOWER_A : byte := x61.
Definition LOWER_Z : byte := x7a.

(** [strchr(s, c) != NULL]: the search stops at the terminating NUL, which
    itself matches a NUL [c]. *)
Fixpoint strchr (s : list byte) (c : byte) : bool :=
  match s with
  | [] => bool_decide (c = NUL)
  | x :: s' =>
      if decide (x = c) then true
      else if decide (x = NUL) then false
      else strchr s' c
  end.

(** [dump(out)]: the bytes written to the stream.  [out << s] writes the C
    string at [s]. *)
Definition dump (signed : bool) (t : atom_table) (a : atom) : list byte :=
  let s := to_string t a in
  let s0 := char_value signed (hd NUL s) in
  if atom_empty a
     || (s0 <? char_value signed LOWER_A)
     || (char_value signed LOWER_Z <? s0)
     || strchr s SPACE
  then [QUOTE] ++ cstr s ++ [QUOTE]
  else cstr s.

(** ** Further concrete inputs *)

Definition buf8 : list byte := replicate 8 x00.

(** [buf8] after storing 513 on two bytes at offset 3. *)
Definition buf8_513 : list byte :=
  [x00; x00; x00; x02; x01; x00; x00; x00].

(** The external form of the atom [abc]: tag 100, length 3, the bytes. *)
Definition buf_abc_ext : list byte := [x64; x00; x03; x61; x62; x63].

Definition table_a : atom_table :=
  {| capacity := 16; m_atoms := [[]; [x61]] |}.
Definition table_fc12_abc : atom_table :=
  {| capacity := 16; m_atoms := [[]; bytes_abc_fc12; bytes_abc] |}.

Definition port_fc12_abc : port.t := port.init (mk_atom 2) 1 (to_uint8 0).

Definition msg_link : transport_msg nat :=
  mk_transport_msg LINK (inr pid_x) (inr pid_x) (inr ref_r) 0%nat false.
Definition msg_unlink : transport_msg nat :=
  mk_transport_msg UNLINK (inr pid_x) (inr pid_x) (inr ref_r) 0%nat false.
Definition msg_monitor : transport_msg nat :=
  mk_transport_msg MONITOR_P (inr pid_x) (inr pid_x) (inr ref_r) 0%nat false.
Definition msg_demonitor : transport_msg nat :=
  mk_transport_msg DEMONITOR_P (inr pid_x) (inr pid_x) (inr ref_r) 0%nat
    false.
Definition msg_exit2 : transport_msg nat :=
  mk_transport_msg EXIT2 (inr pid_y) (inr pid_x) (inr ref_r) 0%nat false.

(** [mbox_x] with a freed timestamp. *)
Definition mbox_freed : mailbox nat := set_time_freed mbox_x 5.

(** * Properties *)

(** ** The mailbox dispatcher *)

Section mailbox_facts.

Context {eterm : Type}.
Implicit Types (mb : mailbox eterm) (n : otp_node eterm).
Implicit Types (a_msg : transport_msg eterm).

Lemma foldl_sends {A} (f : A -> node_call eterm) (l : list A) n :
  foldl (fun n it => try_catch_all (node_send n (f it))) n l
  = {| calls := calls n ++ (f <$> l); send_fails := send_fails n |}.
Proof.
  revert n. induction l as [|x l IH]; intros n; simpl.
  - rewrite app_nil_r. by destruct n.
  - rewrite IH. simpl. by rewrite <- app_assoc.
Qed.

Lemma break_links_calls mb reason :
  calls (m_node (break_links mb reason))
  = calls (m_node mb)
    ++ ((fun p => call_send_exit (self mb) p reason)
          <$> elements (m_links mb))
    ++ ((fun it => call_send_monitor_exit (self mb) it.2 it.1 reason)
          <$> map_to_list (m_monitors mb)).
Proof.
  unfold break_links, send_exit, send_monitor_exit.
  rewrite (foldl_sends (fun p => call_send_exit (self mb) p reason)).
  rewrite (foldl_sends
             (fun it => call_send_monitor_exit (self mb) it.2 it.1 reason)).
  repeat case_decide; simpl; by rewrite <- app_assoc.
Qed.

Lemma break_links_clears mb reason :
  m_links (break_links mb reason) = ∅
  /\ m_monitors (break_links mb reason) = ∅
  /\ m_name (break_links mb reason) = m_name mb
  /\ self (break_links mb reason) = self mb
  /\ m_time_freed (break_links mb reason) = m_time_freed mb
  /\ m_queue (break_links mb reason) = m_queue mb.
Proof.
  unfold break_links. simpl.
  repeat case_decide; simpl in *; repeat split; done.
Qed.

Lemma dispatch_not_undef mb a_msg : dispatch mb a_msg <> Undef.
Proof.
  unfold dispatch.
  unfold sender_pid, get_ref.
  destruct (type a_msg), (m_sender_pid a_msg), (m_ref a_msg); by cbn.
Qed.

Lemma dispatch_throw_inv mb a_msg e :
  dispatch mb a_msg = Throw e ->
  sender_pid a_msg = Throw e \/ get_ref a_msg = Throw e.
Proof.
  unfold dispatch, sender_pid, get_ref.
  destruct (type a_msg), (m_sender_pid a_msg), (m_ref a_msg);
    cbn; intros H; simplify_eq; first [by left | by right].
Qed.

(** [do_deliver] always returns. *)
Lemma do_deliver_returns mb a_msg :
  exists mb', do_deliver mb a_msg = Ret mb'.
Proof.
  unfold do_deliver.
  destruct (dispatch mb a_msg) eqn:E; eauto.
  by apply dispatch_not_undef in E.
Qed.

End mailbox_facts.

Section mailbox_claims.

Context {eterm : Type}.
Implicit Types (mb : mailbox eterm) (a_msg : transport_msg eterm).

(** C1, as the code has it.  Both handler wrappers test the freed timestamp
    against zero the wrong way round: on a live mailbox (timestamp 0) they
    return [false] without calling the user's handler, the timeout handler or
    the matcher, whatever the message and the error code; on a closed mailbox
    (as [close] leaves it when the clock reads a positive count) they go on
    to call the user's handler and hand back its result, resp. match the
    message and return [true]. *)
Theorem async_handlers_test_freed_inverted mb h m (now : positive) reason
    dereg :
  (forall (p_msg : option (transport_msg eterm)) ec,
      async_receive_handler (set_time_freed mb 0) h p_msg ec = (false, [])
      /\ async_match_handler (set_time_freed mb 0) p_msg ec = (false, []))
  /\ (let closed := close mb (Z.pos now) reason dereg in
      async_receive_handler closed h (Some m) false
      = (h closed (Some m), [ev_handler (Some m); ev_delete m])
      /\ async_match_handler closed (Some m) false
         = (true, [ev_match (msg m); ev_delete m])).
Proof.
  split; [done|].
  intros closed.
  assert (Hfreed : m_time_freed closed = Z.pos now).
  { unfold closed, close. simpl.
    match goal with
    | |- m_time_freed (break_links ?x _) = _ =>
        destruct (break_links_clears x reason) as (_ & _ & _ & _ & -> & _)
    end.
    by destruct dereg. }
  unfold async_receive_handler, async_match_handler.
  by rewrite Hfreed.
Qed.

(** C2, as the code has it.  The [switch] of [do_deliver] has cases for
    [EXIT2] and [EXIT2_TT] only: a message of control type [EXIT] or
    [EXIT_TT] takes the default branch, which enqueues it and leaves the
    links set as it was, so a linked sender stays linked. *)
Theorem do_deliver_exit_keeps_link mb (s : epid) rp r payload flag :
  let exit := mk_transport_msg EXIT (inr s) rp r payload flag in
  let exit_tt := mk_transport_msg EXIT_TT (inr s) rp r payload flag in
  let linked := set_links mb ({[s]} ∪ m_links mb) in
  do_deliver linked exit = Ret (push_back linked exit)
  /\ do_deliver linked exit_tt = Ret (push_back linked exit_tt)
  /\ s ∈ m_links (push_back linked exit)
  /\ s ∈ m_links (push_back linked exit_tt).
Proof.
  simpl. repeat split; set_solver.
Qed.

(** The sibling cases: [EXIT2] and [EXIT2_TT] remove the sender from the
    links set and enqueue the message. *)
Lemma do_deliver_exit2 mb a_msg (s : epid) :
  type a_msg = EXIT2 \/ type a_msg = EXIT2_TT ->
  m_sender_pid a_msg = inr s ->
  exists mb', do_deliver mb a_msg = Ret mb'
    /\ m_links mb' = m_links mb ∖ {[s]}
    /\ m_queue mb' = m_queue mb ++ [a_msg].
Proof.
  intros Hty Hs. unfold do_deliver, dispatch, sender_pid.
  destruct Hty as [-> | ->]; rewrite Hs; cbn; eauto.
Qed.

(** C3.  [close(reason, dereg)] calls the node, after the optional
    [close_mailbox], with exactly one [send_exit] per linked pid and one
    [send_monitor_exit] per monitor entry, each carrying [reason], and goes
    through all of them whichever of the sends throw; afterwards the links
    set and the monitors map are empty and the name is the empty atom. *)
Theorem close_broadcasts_and_clears mb now reason dereg :
  let mb' := close mb now reason dereg in
  let exits :=
    (fun p => call_send_exit (self mb) p reason) <$> elements (m_links mb) in
  let monitor_exits :=
    (fun it => call_send_monitor_exit (self mb) it.2 it.1 reason)
      <$> map_to_list (m_monitors mb) in
  calls (m_node mb')
  = calls (m_node mb)
    ++ (if dereg then [call_close_mailbox (self mb)] else [])
    ++ exits ++ monitor_exits
  /\ NoDup (exits ++ monitor_exits)
  /\ (forall p, p ∈ m_links mb <-> call_send_exit (self mb) p reason ∈ exits)
  /\ (forall r p, m_monitors mb !! r = Some p
                  <-> call_send_monitor_exit (self mb) p r reason
                        ∈ monitor_exits)
  /\ m_links mb' = ∅
  /\ m_monitors mb' = ∅
  /\ m_name mb' = atom_null.
Proof.
  intros mb' exits monitor_exits.
  assert (Hinj1 : Inj (=) (=) (fun p => call_send_exit (self mb) p reason)).
  { intros p q Hpq. by injection Hpq. }
  assert (Hinj2 : Inj (=) (=)
            (fun it : ref * epid =>
               call_send_monitor_exit (self mb) it.2 it.1 reason)).
  { intros [r1 p1] [r2 p2] Hpq. simpl in Hpq. by injection Hpq as -> ->. }
  split; [|split; [|split; [|split]]].
  - unfold mb', close. simpl. rewrite break_links_calls.
    destruct dereg; simpl; by rewrite <- ?app_assoc.
  - apply NoDup_app. split; [|split].
    + apply (NoDup_fmap_2 _), NoDup_elements.
    + intros c [p [-> _]]%list_elem_of_fmap [it [? _]]%list_elem_of_fmap.
      discriminate.
    + apply (NoDup_fmap_2 _), NoDup_map_to_list.
  - intros p. unfold exits. rewrite list_elem_of_fmap. split.
    + intros Hp. exists p. split; [done|]. by apply elem_of_elements.
    + intros [q [Hq Hin]]. apply Hinj1 in Hq as ->.
      by apply elem_of_elements.
  - intros r p. unfold monitor_exits. rewrite list_elem_of_fmap. split.
    + intros Hp. exists (r, p). split; [done|].
      by apply elem_of_map_to_list.
    + intros [[r' p'] [Hq Hin]]. simpl in Hq. injection Hq as -> ->.
      by apply elem_of_map_to_list.
  - unfold mb', close. simpl.
    match goal with
    | |- m_links (break_links ?x _) = _ /\ _ =>
        destruct (break_links_clears x reason) as (-> & -> & _)
    end.
    done.
Qed.


End mailbox_claims.

(** ** The atom table *)

Lemma atom_table_new_wf cap : atom_table_wf (atom_table_new cap).
Proof.
  split; simpl.
  - done.
  - apply NoDup_singleton.
  - repeat constructor.
Qed.

Lemma list_find_eq_fresh {A} `{EqDecision A} (l : list A) (s : A) :
  list_find (fun x => x = s) l = None ->
  list_find (fun x => x = s) (l ++ [s]) = Some (length l, s).
Proof.
  intros Hnone%list_find_None. apply list_find_Some. split; [|split].
  - by rewrite lookup_app_r, Nat.sub_diag.
  - done.
  - intros j y Hj Hlt. rewrite lookup_app_l in Hj by done.
    rewrite Forall_forall in Hnone. apply Hnone.
    by eapply list_elem_of_lookup_2.
Qed.

(** A lookup that allocates extends the table at its end; otherwise the
    table is as before. *)
Lemma atom_table_lookup_inv t s i t' :
  atom_table_lookup t s = Ret (i, t') ->
  (t' = t /\ m_atoms t !! i = Some s /\ (s = [] -> i = 0%nat))
  \/ (s <> [] /\ (s ∉ m_atoms t) /\ i = length (m_atoms t)
      /\ (length s <= 255)%nat
      /\ t' = {| capacity := capacity t; m_atoms := m_atoms t ++ [s] |})
  \/ (s = [] /\ i = 0%nat /\ t' = t).
Proof.
  unfold atom_table_lookup.
  destruct (decide (s = [])) as [->|Hne].
  { intros [= <- <-]. right. by right. }
  destruct (decide (255 < length s)%nat); [done|].
  destruct (list_find _ _) as [[j x]|] eqn:Hfind.
  - intros [= <- <-]. apply list_find_Some in Hfind as (Hj & -> & _).
    left. by repeat split.
  - destruct (decide (capacity t <= length (m_atoms t))%nat); [done|].
    intros [= <- <-]. right. left.
    apply list_find_None in Hfind. rewrite Forall_forall in Hfind.
    repeat split; try done; try lia.
    intros Hin. by apply (Hfind _ Hin).
Qed.

Lemma atom_table_lookup_wf t s i t' :
  atom_table_wf t ->
  atom_table_lookup t s = Ret (i, t') ->
  atom_table_wf t' /\ m_atoms t' !! i = Some s
  /\ (forall j x, m_atoms t !! j = Some x -> m_atoms t' !! j = Some x).
Proof.
  intros [H0 Hnd Hsh] Hl.
  apply atom_table_lookup_inv in Hl
    as [(-> & Hi & _)|[(Hne & Hnin & -> & Hlen & ->)|(-> & -> & ->)]].
  - by repeat split.
  - repeat split; simpl.
    + by rewrite lookup_app_l by (by eapply lookup_lt_Some).
    + apply NoDup_app. repeat split; [done| |apply NoDup_singleton].
      intros x Hx ->%list_elem_of_singleton. done.
    + apply Forall_app. split; [done|]. by apply Forall_singleton.
    + by rewrite lookup_app_r, Nat.sub_diag.
    + intros j x Hj. by rewrite lookup_app_l by (by eapply lookup_lt_Some).
  - by repeat split.
Qed.

(** Looking up the bytes of an interned atom returns its index and leaves
    the table alone. *)
Lemma atom_table_lookup_interned t i s :
  atom_table_wf t ->
  m_atoms t !! i = Some s ->
  atom_table_lookup t s = Ret (i, t).
Proof.
  intros [H0 Hnd Hsh] Hi. unfold atom_table_lookup.
  destruct (decide (s = [])) as [->|Hne].
  { by rewrite (NoDup_lookup _ _ _ _ Hnd Hi H0). }
  assert (length s <= 255)%nat as Hlen.
  { rewrite Forall_forall in Hsh. apply Hsh.
    by eapply list_elem_of_lookup_2. }
  destruct (decide (255 < length s)%nat); [lia|].
  destruct (list_find _ _) as [[j x]|] eqn:Hfind.
  - apply list_find_Some in Hfind as (Hj & -> & _).
    by rewrite (NoDup_lookup _ _ _ _ Hnd Hi Hj).
  - apply list_find_None in Hfind. rewrite Forall_forall in Hfind.
    exfalso. apply (Hfind s); [|done]. by eapply list_elem_of_lookup_2.
Qed.

(** C9.  Interning is stable: a lookup that returned index [i] returns [i]
    again when repeated, and allocates nothing the second time.  The lookup
    of the empty string returns 0 and leaves the table as it is, and the
    default-constructed atom has index 0. *)
Theorem atom_table_lookup_stable :
  (forall t s i t',
      atom_table_lookup t s = Ret (i, t') ->
      atom_table_lookup t' s = Ret (i, t'))
  /\ (forall t, atom_table_lookup t [] = Ret (0%nat, t))
  /\ index atom_null = 0%nat.
Proof.
  split; [|done].
  intros t s i t' Hl. unfold atom_table_lookup in *.
  destruct (decide (s = [])) as [->|Hne]; [by injection Hl as <- <-|].
  destruct (decide (255 < length s)%nat); [done|].
  destruct (list_find _ (m_atoms t)) as [[j x]|] eqn:Hfind.
  - injection Hl as <- <-. by rewrite Hfind.
  - destruct (decide (capacity t <= length (m_atoms t))%nat); [done|].
    injection Hl as <- <-. simpl.
    by rewrite (list_find_eq_fresh _ _ Hfind).
Qed.

(** Stability across other lookups: an index, once handed out, is what every
    later lookup of the same bytes returns, however the table has grown in
    between. *)
Lemma atom_table_lookup_later t s i t' u j t'' :
  atom_table_wf t ->
  atom_table_lookup t s = Ret (i, t') ->
  atom_table_lookup t' u = Ret (j, t'') ->
  atom_table_lookup t'' s = Ret (i, t'').
Proof.
  intros Hwf Hs Hu.
  destruct (atom_table_lookup_wf _ _ _ _ Hwf Hs) as (Hwf' & Hi & _).
  destruct (atom_table_lookup_wf _ _ _ _ Hwf' Hu) as (Hwf'' & _ & Hkeep).
  apply atom_table_lookup_interned; auto.
Qed.

(** ** Comparison of atoms *)

Lemma byte_to_Z_inj x y : byte_to_Z x = byte_to_Z y -> x = y.
Proof.
  unfold byte_to_Z. intros H%N2Z.inj.
  pose proof (Byte.of_to_N x) as Hx. rewrite H, Byte.of_to_N in Hx.
  by injection Hx.
Qed.

Lemma byte_to_Z_range b : 0 <= byte_to_Z b < 256.
Proof.
  unfold byte_to_Z. pose proof (Byte.to_N_bounded b). lia.
Qed.

Lemma byte_to_Z_NUL b : byte_to_Z b = 0 -> b = NUL.
Proof. intros H. by apply byte_to_Z_inj. Qed.

Lemma Z_to_byte_to_Z z : byte_to_Z (Z_to_byte z) = z mod 256.
Proof.
  unfold Z_to_byte, byte_to_Z.
  assert (0 <= z mod 256 < 256) as Hr by (apply Z.mod_pos_bound; lia).
  destruct (Byte.of_N _) as [b|] eqn:Hb.
  - apply Byte.to_of_N in Hb. rewrite Hb. lia.
  - apply Byte.of_N_None_iff in Hb. lia.
Qed.


Lemma byte_cmp_antisym x y :
  x <> y ->
  (if byte_to_Z y <? byte_to_Z x then -1 else 1)
  = - (if byte_to_Z x <? byte_to_Z y then -1 else 1).
Proof.
  intros Hne.
  destruct (Z.ltb_spec (byte_to_Z y) (byte_to_Z x)),
    (Z.ltb_spec (byte_to_Z x) (byte_to_Z y)); try lia.
  exfalso. apply Hne, byte_to_Z_inj. lia.
Qed.

Lemma strcmp_antisym a b : strcmp b a = - strcmp a b.
Proof.
  revert b. induction a as [|x a IH]; intros [|y b]; simpl;
    repeat case_decide; subst; try done;
    first [by apply byte_cmp_antisym | apply IH].
Qed.

Lemma byte_to_Z_pos b : b <> NUL -> 0 < byte_to_Z b.
Proof.
  intros Hb. pose proof (byte_to_Z_range b).
  destruct (decide (byte_to_Z b = 0)) as [H0|]; [|lia].
  by apply byte_to_Z_NUL in H0.
Qed.

(** One step of [strcmp], by cases on the two strings. *)
Lemma strcmp_nil_nil : strcmp [] [] = 0.
Proof. done. Qed.

Lemma strcmp_nil_cons y b : y <> NUL -> strcmp [] (y :: b) = -1.
Proof.
  intros Hy. simpl. case_decide; [done|].
  pose proof (byte_to_Z_pos y Hy). change (byte_to_Z NUL) with 0.
  by destruct (Z.ltb_spec 0 (byte_to_Z y)); [|lia].
Qed.

Lemma strcmp_cons_nil x a : x <> NUL -> strcmp (x :: a) [] = 1.
Proof.
  intros Hx. simpl. case_decide; [done|].
  pose proof (byte_to_Z_pos x Hx). change (byte_to_Z NUL) with 0.
  by destruct (Z.ltb_spec (byte_to_Z x) 0); [lia|].
Qed.

Lemma strcmp_cons_eq x a b : x <> NUL -> strcmp (x :: a) (x :: b) = strcmp a b.
Proof. intros Hx. simpl. by repeat case_decide. Qed.

Lemma strcmp_cons_ne x y a b :
  x <> y ->
  strcmp (x :: a) (y :: b) = if byte_to_Z x <? byte_to_Z y then -1 else 1.
Proof. intros Hx. simpl. by case_decide. Qed.

(** On strings without a NUL byte, [strcmp] is the lexicographic order. *)
Lemma strcmp_lt_lex a b :
  NUL ∉ a -> NUL ∉ b -> (strcmp a b <? 0) = lex_lt a b.
Proof.
  revert b. induction a as [|x a IH]; intros [|y b] Ha Hb.
  - done.
  - apply not_elem_of_cons in Hb as [Hy Hb].
    by rewrite strcmp_nil_cons.
  - apply not_elem_of_cons in Ha as [Hx Ha].
    by rewrite strcmp_cons_nil.
  - apply not_elem_of_cons in Ha as [Hx Ha].
    apply not_elem_of_cons in Hb as [Hy Hb].
    destruct (decide (x = y)) as [->|Hxy].
    + rewrite strcmp_cons_eq by done. simpl.
      rewrite Z.ltb_irrefl. case_decide; [|done]. by apply IH.
    + rewrite strcmp_cons_ne by done. simpl.
      destruct (byte_to_Z x <? byte_to_Z y); [done|]. by case_decide.
Qed.

Lemma strcmp_eq_0 a b :
  NUL ∉ a -> NUL ∉ b -> strcmp a b = 0 <-> a = b.
Proof.
  revert b. induction a as [|x a IH]; intros [|y b] Ha Hb.
  - done.
  - apply not_elem_of_cons in Hb as [Hy Hb].
    by rewrite strcmp_nil_cons.
  - apply not_elem_of_cons in Ha as [Hx Ha].
    by rewrite strcmp_cons_nil.
  - apply not_elem_of_cons in Ha as [Hx Ha].
    apply not_elem_of_cons in Hb as [Hy Hb].
    destruct (decide (x = y)) as [->|Hxy].
    + rewrite strcmp_cons_eq by done. rewrite IH by done.
      split; congruence.
    + rewrite strcmp_cons_ne by done.
      split; [by case_match|congruence].
Qed.

Lemma lex_lt_irrefl a : lex_lt a a = false.
Proof.
  induction a as [|x a IH]; simpl; [done|].
  rewrite Z.ltb_irrefl. by case_decide.
Qed.

Lemma atom_valid_lookup t a :
  atom_valid t a -> m_atoms t !! m_index a = Some (to_string t a).
Proof.
  unfold atom_valid, to_string, atom_table_get.
  intros [s Hs]%lookup_lt_is_Some. by rewrite Hs.
Qed.

(** Under the invariant of the table, two interned atoms have the same
    index exactly when they have the same bytes. *)
Lemma atom_index_eq_iff t a b :
  atom_table_wf t -> atom_valid t a -> atom_valid t b ->
  m_index a = m_index b <-> to_string t a = to_string t b.
Proof.
  intros [_ Hnd _] Ha%atom_valid_lookup Hb%atom_valid_lookup. split.
  - unfold to_string. by intros ->.
  - intros Heq. rewrite Heq in Ha. by eapply NoDup_lookup.
Qed.





(** ** Ordering of ports *)

Lemma compare_refl_index t a b : m_index a = m_index b -> compare t a b = 0.
Proof. unfold compare. intros ->. by case_decide. Qed.







(** ** Construction of ports and pids *)

Lemma land_low_28 z : Z.land z 0x0fffffff = z mod 2 ^ 28.
Proof. change 0x0fffffff with (Z.ones 28). by rewrite Z.land_ones. Qed.

Lemma creation_low_2 z : to_uint8 (Z.land (to_uint8 z) 0x03) = z mod 4.
Proof.
  unfold to_uint8. change 0x03 with (Z.ones 2).
  rewrite Z.land_ones by lia. change (2 ^ 2) with 4.
  rewrite (Z.mod_mod_divide z 256 4) by (by exists 64).
  apply Z.mod_small. pose proof (Z.mod_pos_bound z 4). lia.
Qed.

(** C6.  A port built from components by either constructor, and a pid,
    stores the creation reduced modulo 4 and the id reduced modulo 2^28,
    and the accessors return these; a creation of 4 reads back as 0. *)
Theorem port_components_masked :
  (forall node id creation,
      port.creation (port.init node id (to_uint8 creation)) = creation mod 4
      /\ port.id (port.init node id (to_uint8 creation)) = id mod 2 ^ 28)
  /\ (forall tbl node id creation p,
         port.of_atom tbl node id creation = Ret p ->
         port.creation p = creation mod 4 /\ port.id p = id mod 2 ^ 28
         /\ port.node p = node)
  /\ (forall tbl node id creation p tbl',
         port.of_cstr tbl node id creation = Ret (p, tbl') ->
         port.creation p = creation mod 4 /\ port.id p = id mod 2 ^ 28)
  /\ (forall node id, port.creation (port.init node id (to_uint8 4)) = 0)
  /\ (forall node id serial creation,
         pid_creation (epid_init node id serial creation) = creation mod 4
         /\ pid_id (epid_init node id serial creation) = id mod 2 ^ 28).
Proof.
  assert (Hinit : forall node id creation,
             port.creation (port.init node id (to_uint8 creation))
             = creation mod 4
             /\ port.id (port.init node id (to_uint8 creation))
                = id mod 2 ^ 28).
  { intros. simpl. by rewrite creation_low_2, land_low_28. }
  split; [done|]. split; [|split; [|split]].
  - intros tbl node id creation p. unfold port.of_atom.
    destruct (check_node_length _); cbn; [|done..].
    intros [= <-]. destruct (Hinit node id creation). by repeat split.
  - intros tbl node id creation p tbl'. unfold port.of_cstr.
    destruct (check_node_length _); cbn; [|done..].
    destruct (atom_of_string _ _) as [[l_node tbl'']| |]; cbn; [|done..].
    intros [= <- <-]. apply Hinit.
  - intros node id. by destruct (Hinit node id 4) as [-> _].
  - intros node id serial creation. simpl. by rewrite land_low_28.
Qed.

(** ** Encoding and decoding of atoms *)

Lemma store_at_app pre old post bs :
  length old = length bs ->
  store_at (pre ++ old ++ post) (length pre) bs = Ret (pre ++ bs ++ post).
Proof.
  intros Hlen. unfold store_at. rewrite !length_app.
  case_decide; [|lia].
  rewrite take_app_length. rewrite <- Hlen.
  rewrite drop_app_add. by rewrite drop_app_length.
Qed.

Lemma load_at_app pre bs post :
  load_at (pre ++ bs ++ post) (length pre) (length bs) = Ret bs.
Proof.
  unfold load_at. rewrite !length_app.
  case_decide; [|lia].
  by rewrite drop_app_length, take_app_length.
Qed.

Lemma cast_be_1 z : 0 <= z < 256 -> cast_be (be_bytes 1 z) = z.
Proof.
  intros Hz. unfold cast_be. simpl.
  rewrite Z_to_byte_to_Z, Z.div_1_r. by apply Z.mod_small.
Qed.

Lemma cast_be_2 z : 0 <= z < 65536 -> cast_be (be_bytes 2 z) = z.
Proof.
  intros Hz. unfold cast_be. simpl.
  rewrite !Z_to_byte_to_Z, Z.div_1_r.
  change (256 ^ 1) with 256.
  rewrite (Z.mod_small (z / 256)).
  - pose proof (Z.div_mod z 256). lia.
  - split; [apply Z.div_pos; lia|apply Z.div_lt_upper_bound; lia].
Qed.

Lemma length_be_bytes w z : length (be_bytes w z) = w.
Proof. induction w; simpl; auto. Qed.

(** A buffer with room for [n] bytes at [idx] splits around them. *)
Lemma buffer_split (buf : list byte) idx n :
  (idx + n <= length buf)%nat ->
  buf = take idx buf ++ take n (drop idx buf) ++ drop (idx + n) buf
  /\ length (take idx buf) = idx
  /\ length (take n (drop idx buf)) = n.
Proof.
  intros Hlen. repeat split.
  - rewrite <- drop_drop, take_drop. by rewrite take_drop.
  - rewrite length_take. lia.
  - rewrite length_take, length_drop. lia.
Qed.

Lemma length_atom_ext t a : length (atom_ext t a) = encode_size t a.
Proof.
  unfold atom_ext, encode_size, atom_length, atom_size.
  rewrite !length_app, !length_be_bytes. lia.
Qed.

Lemma atom_length_short t a :
  atom_table_wf t -> atom_valid t a -> (atom_length t a <= 255)%nat.
Proof.
  intros [_ _ Hsh] Ha%atom_valid_lookup. rewrite Forall_forall in Hsh.
  apply Hsh. by eapply list_elem_of_lookup_2.
Qed.

Lemma encode_writes t a pre old post :
  atom_table_wf t -> atom_valid t a ->
  length old = encode_size t a ->
  encode t a (pre ++ old ++ post) (length pre)
  = Ret (pre ++ atom_ext t a ++ post, (length pre + encode_size t a)%nat).
Proof.
  intros Hwf Ha Hold.
  pose proof (atom_length_short t a Hwf Ha) as Hshort.
  unfold encode_size in *.
  destruct old as [|o1 [|o2 [|o3 old]]]; simpl in Hold; try lia.
  injection Hold as Hold.
  unfold encode, put8, put16be, put_be, memmove.
  rewrite (Nat.min_r MAXATOMLEN) by (unfold MAXATOMLEN; lia).
  replace (pre ++ (o1 :: o2 :: o3 :: old) ++ post)
    with (pre ++ [o1] ++ ([o2; o3] ++ old ++ post)) by done.
  rewrite (store_at_app pre [o1] ([o2; o3] ++ old ++ post)
             (be_bytes 1 ERL_ATOM_EXT)) by done.
  cbn [mbind outcome_bind].
  set (hdr1 := pre ++ be_bytes 1 ERL_ATOM_EXT).
  replace (length pre + 1)%nat with (length hdr1)
    by (unfold hdr1; by rewrite length_app).
  replace (pre ++ be_bytes 1 ERL_ATOM_EXT ++ [o2; o3] ++ old ++ post)
    with (hdr1 ++ [o2; o3] ++ (old ++ post))
    by (unfold hdr1; by rewrite <- app_assoc).
  rewrite (store_at_app hdr1 [o2; o3] (old ++ post)
             (be_bytes 2 (Z.of_nat (atom_length t a)))) by done.
  cbn [mbind outcome_bind].
  unfold atom_length, atom_size in *.
  case_decide as Hl; [|lia].
  rewrite firstn_all.
  set (hdr2 := hdr1 ++ be_bytes 2 (Z.of_nat (length (to_string t a)))).
  replace (length hdr1 + 2)%nat with (length hdr2)
    by (unfold hdr2; by rewrite !length_app, !length_be_bytes).
  replace (hdr1 ++ be_bytes 2 (Z.of_nat (length (to_string t a)))
           ++ old ++ post)
    with (hdr2 ++ old ++ post)
    by (unfold hdr2; by rewrite <- app_assoc).
  rewrite (store_at_app hdr2 old post (to_string t a)) by done.
  cbn [mbind outcome_bind]. f_equal. f_equal.
  - unfold hdr2, hdr1, atom_ext, atom_length, atom_size.
    by rewrite <- !app_assoc.
  - unfold hdr2, hdr1. rewrite !length_app, !length_be_bytes. lia.
Qed.

Lemma load_at_app_n pre bs post n :
  n = length bs -> load_at (pre ++ bs ++ post) (length pre) n = Ret bs.
Proof. intros ->. apply load_at_app. Qed.

Lemma decode_reads t a pre post :
  atom_table_wf t -> atom_valid t a ->
  atom_decode t (pre ++ atom_ext t a ++ post) (length pre)
  = Ret (a, (length pre + encode_size t a)%nat, t).
Proof.
  intros Hwf Ha.
  pose proof (atom_length_short t a Hwf Ha) as Hshort.
  unfold atom_decode, get8, get16be, get_be, atom_ext.
  set (len := be_bytes 2 (Z.of_nat (atom_length t a))).
  set (tag := be_bytes 1 ERL_ATOM_EXT).
  replace (pre ++ (tag ++ len ++ to_string t a) ++ post)
    with (pre ++ tag ++ (len ++ to_string t a ++ post))
    by (by rewrite <- !app_assoc).
  rewrite (load_at_app_n pre tag) by done.
  cbn [mbind outcome_bind].
  change (cast_be tag) with (cast_be (be_bytes 1 ERL_ATOM_EXT)).
  rewrite cast_be_1 by done.
  rewrite decide_True by done.
  set (hdr1 := pre ++ tag).
  replace (length pre + 1)%nat with (length hdr1)
    by (unfold hdr1; by rewrite length_app).
  replace (pre ++ tag ++ len ++ to_string t a ++ post)
    with (hdr1 ++ len ++ (to_string t a ++ post))
    by (unfold hdr1; by rewrite <- !app_assoc).
  rewrite (load_at_app_n hdr1 len) by done.
  cbn [mbind outcome_bind].
  change (cast_be len)
    with (cast_be (be_bytes 2 (Z.of_nat (atom_length t a)))).
  rewrite cast_be_2 by lia. rewrite Nat2Z.id.
  set (hdr2 := hdr1 ++ len).
  replace (length hdr1 + 2)%nat with (length hdr2)
    by (unfold hdr2; by rewrite !length_app).
  replace (hdr1 ++ len ++ to_string t a ++ post)
    with (hdr2 ++ to_string t a ++ post)
    by (unfold hdr2; by rewrite <- !app_assoc).
  rewrite (load_at_app_n hdr2 (to_string t a)) by done.
  cbn [mbind outcome_bind].
  rewrite (atom_table_lookup_interned t (m_index a))
    by (done || by apply atom_valid_lookup).
  cbn [mbind outcome_bind]. destruct a as [i]. simpl. do 3 f_equal.
  unfold hdr2, hdr1, encode_size, atom_length, atom_size.
  rewrite !length_app. unfold tag, len. rewrite !length_be_bytes. simpl. lia.
Qed.

(** C7.  For an atom interned in a table that satisfies its invariant, and
    a buffer with room for [encode_size] bytes at the cursor: [encode] writes
    the [ATOM_EXT] form of the atom at the cursor and nothing else, these are
    [encode_size = 3 + length] bytes, and the cursor advances by as many;
    decoding the buffer at the old cursor yields the same atom, leaves the
    table as it is, and advances the cursor past the same bytes. *)
Theorem atom_encode_decode_roundtrip t a buf idx :
  atom_table_wf t -> atom_valid t a ->
  (idx + encode_size t a <= length buf)%nat ->
  exists buf',
    encode t a buf idx = Ret (buf', (idx + encode_size t a)%nat)
    /\ buf' = take idx buf ++ atom_ext t a ++ drop (idx + encode_size t a) buf
    /\ length (atom_ext t a) = encode_size t a
    /\ encode_size t a = (3 + atom_length t a)%nat
    /\ atom_decode t buf' idx = Ret (a, (idx + encode_size t a)%nat, t).
Proof.
  intros Hwf Ha Hroom.
  destruct (buffer_split buf idx (encode_size t a) Hroom)
    as (Hbuf & Hpre & Hold).
  set (pre := take idx buf) in *.
  set (old := take (encode_size t a) (drop idx buf)) in *.
  set (post := drop (idx + encode_size t a) buf) in *.
  exists (pre ++ atom_ext t a ++ post).
  split; [|split; [done|split; [apply length_atom_ext|split; [done|]]]].
  - clearbody pre old post. subst buf idx. by apply encode_writes.
  - clearbody pre old post. subst buf idx. by apply decode_reads.
Qed.

(** ** Node names *)

(** Without the separator, [make_node_name] goes on to the length check and
    the interning. *)
Lemma make_node_name_no_separator t s :
  AT_SIGN ∉ s ->
  make_node_name t s
  = (_ ← check_node_length (length s); atom_of_string t s).
Proof.
  intros Hat. unfold make_node_name, string_find.
  destruct (list_find _ _) as [[i x]|] eqn:Hfind; [|done].
  apply list_find_Some in Hfind as (Hi & -> & _).
  exfalso. apply Hat. by eapply list_elem_of_lookup_2.
Qed.

(** C4, as the code has it.  [!s.find('@')] is true only when the separator
    is the first byte: a name that starts with the separator is rejected, and
    a name without separator is not.  The name [abc] comes back as an atom,
    interned in a fresh table at index 1. *)
Theorem make_node_name_accepts_missing_separator :
  (AT_SIGN ∉ bytes_abc)
  /\ make_node_name (atom_table_new 16) bytes_abc
     = Ret (mk_atom 1, {| capacity := 16; m_atoms := [[]; bytes_abc] |})
  /\ (forall t s,
         make_node_name t (AT_SIGN :: s)
         = Throw (err_bad_argument "Invalid node name")).
Proof.
  split; [|split; [by vm_compute|done]].
  unfold bytes_abc. rewrite !not_elem_of_cons.
  repeat split; try done. apply not_elem_of_nil.
Qed.

(** ** Concrete instances *)

Ltac solve_table_wf :=
  split;
  [ reflexivity
  | apply (bool_decide_unpack _); vm_compute; exact I
  | repeat constructor; simpl; lia ].

Lemma table_abc_wf : atom_table_wf table_abc.
Proof. solve_table_wf. Qed.


Lemma close_broadcasts_and_clears_witness :
  calls (m_node (close mbox_x 5 3%nat true))
  = calls (m_node mbox_x)
    ++ [call_close_mailbox pid_x]
    ++ ((fun p => call_send_exit pid_x p 3%nat) <$> elements (m_links mbox_x))
    ++ ((fun it => call_send_monitor_exit pid_x it.2 it.1 3%nat)
          <$> map_to_list (m_monitors mbox_x))
  /\ m_links (close mbox_x 5 3%nat true) = ∅
  /\ m_monitors (close mbox_x 5 3%nat true) = ∅
  /\ m_name (close mbox_x 5 3%nat true) = atom_null.
Proof.
  destruct (close_broadcasts_and_clears mbox_x 5 3%nat true)
    as (Hcalls & _ & _ & _ & Hl & Hm & Hn).
  exact (conj Hcalls (conj Hl (conj Hm Hn))).
Defined.


Lemma port_components_masked_witness :
  port.of_cstr (atom_table_new 16) bytes_abc_fc12 1 4
  = Ret (port_fc12, table_fc12)
  /\ port.creation port_fc12 = 4 mod 4
  /\ port.id port_fc12 = 1 mod 2 ^ 28.
Proof.
  split; [by vm_compute|].
  apply (proj1 (proj2 (proj2 port_components_masked))
           (atom_table_new 16) bytes_abc_fc12 1 4 port_fc12 table_fc12).
  by vm_compute.
Defined.

Lemma atom_encode_decode_roundtrip_witness :
  exists buf',
    encode table_abc (mk_atom 1) (replicate 8 x00) 1
    = Ret (buf', (1 + encode_size table_abc (mk_atom 1))%nat)
    /\ buf' = take 1 (replicate 8 x00)
              ++ atom_ext table_abc (mk_atom 1)
              ++ drop (1 + encode_size table_abc (mk_atom 1))
                      (replicate 8 x00)
    /\ length (atom_ext table_abc (mk_atom 1))
       = encode_size table_abc (mk_atom 1)
    /\ encode_size table_abc (mk_atom 1)
       = (3 + atom_length table_abc (mk_atom 1))%nat
    /\ atom_decode table_abc buf' 1
       = Ret (mk_atom 1, (1 + encode_size table_abc (mk_atom 1))%nat,
              table_abc).
Proof.
  apply (atom_encode_decode_roundtrip table_abc (mk_atom 1)
           (replicate 8 x00) 1 table_abc_wf).
  - unfold atom_valid. simpl. lia.
  - unfold encode_size, atom_length, atom_size. simpl. lia.
Defined.




Lemma atom_table_lookup_stable_witness :
  atom_table_lookup (atom_table_new 16) bytes_abc = Ret (1%nat, table_abc)
  /\ atom_table_lookup table_abc bytes_abc = Ret (1%nat, table_abc).
Proof.
  assert (H : atom_table_lookup (atom_table_new 16) bytes_abc
              = Ret (1%nat, table_abc)) by reflexivity.
  split; [exact H|].
  exact (proj1 atom_table_lookup_stable _ _ _ _ H).
Defined.



(** * Further properties *)

(** ** Big-endian stores and loads *)

Lemma fold_cast_be bs acc :
  fold_left (fun acc b => acc * 256 + byte_to_Z b) bs acc
  = acc * 256 ^ Z.of_nat (length bs) + cast_be bs.
Proof.
  unfold cast_be. revert acc. induction bs as [|b bs IH]; intros acc.
  - simpl. lia.
  - cbn [fold_left length]. rewrite IH, (IH (0 * 256 + byte_to_Z b)).
    rewrite Nat2Z.inj_succ, Z.pow_succ_r by lia. lia.
Qed.

Lemma cast_be_cons b bs :
  cast_be (b :: bs)
  = byte_to_Z b * 256 ^ Z.of_nat (length bs) + cast_be bs.
Proof.
  unfold cast_be at 1. cbn [fold_left]. rewrite fold_cast_be. lia.
Qed.

Lemma cast_be_range bs : 0 <= cast_be bs < 256 ^ Z.of_nat (length bs).
Proof.
  induction bs as [|b bs IH].
  - by vm_compute.
  - rewrite cast_be_cons. cbn [length].
    rewrite Nat2Z.inj_succ, Z.pow_succ_r by lia.
    pose proof (byte_to_Z_range b). nia.
Qed.

Lemma cast_be_be_bytes w n :
  cast_be (be_bytes w n) = n mod 256 ^ Z.of_nat w.
Proof.
  induction w as [|w IH].
  - by rewrite Z.mod_1_r.
  - cbn [be_bytes]. rewrite cast_be_cons, length_be_bytes, IH.
    rewrite Z_to_byte_to_Z, Nat2Z.inj_succ, Z.pow_succ_r by lia.
    rewrite (Z.mul_comm 256), Z.rem_mul_r by lia. lia.
Qed.

Lemma Z_to_byte_of_byte b : Z_to_byte (byte_to_Z b) = b.
Proof.
  apply byte_to_Z_inj. rewrite Z_to_byte_to_Z.
  apply Z.mod_small, byte_to_Z_range.
Qed.

Lemma Z_to_byte_add z m : Z_to_byte (z + m * 256) = Z_to_byte z.
Proof.
  apply byte_to_Z_inj. by rewrite !Z_to_byte_to_Z, Z_mod_plus_full.
Qed.

Lemma be_bytes_add w n m :
  be_bytes w (n + m * 256 ^ Z.of_nat w) = be_bytes w n.
Proof.
  revert m. induction w as [|w IH]; intros m; [done|].
  cbn [be_bytes]. rewrite Nat2Z.inj_succ, Z.pow_succ_r by lia.
  replace (n + m * (256 * 256 ^ Z.of_nat w))
    with (n + (m * 256) * 256 ^ Z.of_nat w) by lia.
  rewrite IH. f_equal.
  rewrite Z.div_add by lia. apply Z_to_byte_add.
Qed.

Lemma be_bytes_cast_be bs : be_bytes (length bs) (cast_be bs) = bs.
Proof.
  induction bs as [|b bs IH]; [done|].
  cbn [length be_bytes]. rewrite cast_be_cons.
  pose proof (cast_be_range bs) as Hr. f_equal.
  - rewrite Z.add_comm, Z.div_add by lia.
    rewrite Z.div_small by done. apply Z_to_byte_of_byte.
  - rewrite Z.add_comm, be_bytes_add. apply IH.
Qed.

Lemma store_at_inv buf s bs buf' :
  store_at buf s bs = Ret buf' ->
  (s + length bs <= length buf)%nat
  /\ buf' = take s buf ++ bs ++ drop (s + length bs) buf.
Proof. unfold store_at. case_decide; [|done]. by intros [= <-]. Qed.

Lemma load_at_inv buf s n bs :
  load_at buf s n = Ret bs ->
  (s + n <= length buf)%nat /\ bs = take n (drop s buf) /\ length bs = n.
Proof.
  unfold load_at. case_decide; [|done]. intros [= <-].
  repeat split; try done. rewrite length_take, length_drop. lia.
Qed.

Lemma load_at_app_at pre bs post s :
  length pre = s -> load_at (pre ++ bs ++ post) s (length bs) = Ret bs.
Proof. intros <-. apply load_at_app. Qed.

Lemma store_at_app_at pre old post bs s :
  length pre = s -> length old = length bs ->
  store_at (pre ++ old ++ post) s bs = Ret (pre ++ bs ++ post).
Proof. intros <-. apply store_at_app. Qed.

Lemma load_after_store buf s bs buf' :
  store_at buf s bs = Ret buf' -> load_at buf' s (length bs) = Ret bs.
Proof.
  intros [Hroom ->]%store_at_inv.
  apply load_at_app_at. rewrite length_take. lia.
Qed.

(** A store followed by a load of the same width at the same place: what
    [put8], [put16be], [put32be] and [put64be] write (widths 1, 2, 4, 8),
    [get8], [get16be], [get32be] and [get64be] read back as the value
    modulo 2^(8w), and both advance the cursor by [w]. *)
Theorem put_get_be_roundtrip w buf s n buf' s' :
  put_be w buf s n = Ret (buf', s') ->
  s' = (s + w)%nat
  /\ length buf' = length buf
  /\ get_be w buf' s = Ret (n mod 256 ^ Z.of_nat w, s').
Proof.
  unfold put_be, get_be.
  destruct (store_at buf s (be_bytes w n)) as [b| |] eqn:Hst; cbn; [|done..].
  intros [= <- <-].
  pose proof (load_after_store _ _ _ _ Hst) as Hld.
  rewrite length_be_bytes in Hld. rewrite Hld. cbn.
  rewrite cast_be_be_bytes.
  apply store_at_inv in Hst as [Hroom ->]. rewrite length_be_bytes in Hroom.
  repeat split; try done.
  rewrite !length_app, length_take, length_drop, length_be_bytes. lia.
Qed.

(** A store changes nothing outside the [w] bytes at the cursor. *)
Theorem put_be_frame w buf s n buf' s' i :
  put_be w buf s n = Ret (buf', s') ->
  (i < s \/ s + w <= i)%nat ->
  buf' !! i = buf !! i.
Proof.
  unfold put_be.
  destruct (store_at buf s (be_bytes w n)) as [b| |] eqn:Hst; cbn; [|done..].
  intros [= <- <-] Hi.
  apply store_at_inv in Hst as [Hroom ->]. rewrite length_be_bytes in *.
  assert (length (take s buf) = s) as Hpre by (rewrite length_take; lia).
  destruct Hi as [Hi|Hi].
  - rewrite lookup_app_l by lia. apply lookup_take_lt. lia.
  - rewrite lookup_app_r by lia. rewrite Hpre.
    rewrite lookup_app_r by (rewrite length_be_bytes; lia).
    rewrite length_be_bytes, lookup_drop. f_equal. lia.
Qed.

(** A load returns a value that fits [w] bytes, and storing that value
    back at the same place leaves the buffer as it is. *)
Theorem get_put_be_roundtrip w buf s v s' :
  get_be w buf s = Ret (v, s') ->
  s' = (s + w)%nat
  /\ 0 <= v < 256 ^ Z.of_nat w
  /\ put_be w buf s v = Ret (buf, s').
Proof.
  unfold get_be, put_be.
  destruct (load_at buf s w) as [bs| |] eqn:Hld; cbn; [|done..].
  intros [= <- <-].
  apply load_at_inv in Hld as (Hroom & Hbs & Hlen).
  split; [done|]. split; [rewrite <- Hlen; apply cast_be_range|].
  replace (be_bytes w (cast_be bs)) with bs
    by (by rewrite <- Hlen, be_bytes_cast_be).
  destruct (buffer_split buf s w Hroom) as (Hbuf & Hpre & Hold).
  rewrite <- Hbs in Hbuf, Hold.
  rewrite Hbuf at 1.
  rewrite (store_at_app_at _ bs _ bs s) by done. cbn. by rewrite <- Hbuf.
Qed.

(** ** C strings and the order of atoms *)

Lemma strcmp_refl a : strcmp a a = 0.
Proof.
  induction a as [|x a IH]; [done|].
  simpl. rewrite decide_True by done. by case_decide.
Qed.

Lemma strcmp_NUL_l a b : strcmp (NUL :: a) b = strcmp [] b.
Proof. simpl. by case_decide. Qed.

Lemma strcmp_NUL_r a b : strcmp a (NUL :: b) = strcmp a [].
Proof. destruct a as [|x a]; simpl; repeat case_decide; by subst. Qed.

Lemma cstr_nil : cstr [] = [].
Proof. done. Qed.

Lemma cstr_NUL a : cstr (NUL :: a) = [].
Proof. done. Qed.

Lemma cstr_cons x a : x <> NUL -> cstr (x :: a) = x :: cstr a.
Proof. intros Hx. unfold cstr. simpl. by rewrite decide_False. Qed.

Lemma cstr_no_NUL a : NUL ∉ cstr a.
Proof.
  induction a as [|x a IH]; [apply not_elem_of_nil|].
  destruct (decide (x = NUL)) as [->|Hx].
  - rewrite cstr_NUL. apply not_elem_of_nil.
  - rewrite cstr_cons by done. apply not_elem_of_cons. by split.
Qed.

Lemma cstr_id a : NUL ∉ a -> cstr a = a.
Proof.
  induction a as [|x a IH]; [done|].
  intros [Hx Ha]%not_elem_of_cons. rewrite cstr_cons by done.
  by rewrite IH.
Qed.

(** [strcmp] sees only the C strings. *)
Lemma strcmp_cstr a b : strcmp a b = strcmp (cstr a) (cstr b).
Proof.
  revert b. induction a as [|x a IH]; intros b.
  - rewrite cstr_nil. destruct b as [|y b]; [done|].
    destruct (decide (y = NUL)) as [->|Hy].
    + by rewrite strcmp_NUL_r, cstr_NUL.
    + by rewrite cstr_cons, !strcmp_nil_cons.
  - destruct (decide (x = NUL)) as [->|Hx].
    + rewrite strcmp_NUL_l, cstr_NUL. destruct b as [|y b]; [done|].
      destruct (decide (y = NUL)) as [->|Hy].
      * by rewrite strcmp_NUL_r, cstr_NUL.
      * by rewrite cstr_cons, !strcmp_nil_cons.
    + rewrite (cstr_cons x) by done. destruct b as [|y b].
      * by rewrite cstr_nil, !strcmp_cons_nil.
      * destruct (decide (y = NUL)) as [->|Hy].
        { by rewrite strcmp_NUL_r, cstr_NUL, !strcmp_cons_nil. }
        rewrite (cstr_cons y) by done.
        destruct (decide (x = y)) as [->|Hxy].
        { rewrite !strcmp_cons_eq by done. apply IH. }
        by rewrite !strcmp_cons_ne.
Qed.

Lemma strcmp_lt_cstr a b :
  (strcmp a b <? 0) = lex_lt (cstr a) (cstr b).
Proof.
  rewrite strcmp_cstr. apply strcmp_lt_lex; apply cstr_no_NUL.
Qed.

Lemma strcmp_eq_cstr a b : strcmp a b = 0 <-> cstr a = cstr b.
Proof.
  rewrite strcmp_cstr. apply strcmp_eq_0; apply cstr_no_NUL.
Qed.

Lemma lex_lt_trans a b c :
  lex_lt a b = true -> lex_lt b c = true -> lex_lt a c = true.
Proof.
  revert b c. induction a as [|x a IH]; intros [|y b] [|z c]; simpl;
    try done.
  destruct (Z.ltb_spec (byte_to_Z x) (byte_to_Z y)) as [Hxy|Hxy].
  - intros _.
    destruct (Z.ltb_spec (byte_to_Z y) (byte_to_Z z)) as [Hyz|Hyz].
    + intros _. by destruct (Z.ltb_spec (byte_to_Z x) (byte_to_Z z)); [|lia].
    + case_decide as Heq; [|done]. subst z. intros _.
      by destruct (Z.ltb_spec (byte_to_Z x) (byte_to_Z y)); [|lia].
  - case_decide as Heq; [|done]. subst y. intros Hab.
    destruct (Z.ltb_spec (byte_to_Z x) (byte_to_Z z)) as [Hxz|Hxz]; [done|].
    case_decide; [|done]. by apply IH.
Qed.

Lemma lex_lt_asym a b : lex_lt a b = true -> lex_lt b a = false.
Proof.
  intros Hab. destruct (lex_lt b a) eqn:Hba; [|done].
  pose proof (lex_lt_trans _ _ _ Hab Hba) as H.
  by rewrite lex_lt_irrefl in H.
Qed.

(** Two C strings that are not ordered either way are the same. *)
Lemma lex_lt_total a b :
  lex_lt a b = false -> lex_lt b a = false -> a = b.
Proof.
  revert b. induction a as [|x a IH]; intros [|y b]; simpl; try done.
  destruct (Z.ltb_spec (byte_to_Z x) (byte_to_Z y)) as [Hxy|Hxy]; [done|].
  destruct (Z.ltb_spec (byte_to_Z y) (byte_to_Z x)) as [Hyx|Hyx].
  { by repeat case_decide. }
  assert (x = y) as -> by (apply byte_to_Z_inj; lia).
  rewrite !decide_True by done. intros Hab Hba. f_equal. by apply IH.
Qed.

(** [operator<] of atoms is a strict weak ordering, on any table and also
    for atoms with embedded NUL bytes: it is irreflexive, asymmetric and
    transitive, and being unordered either way is transitive.  This is what
    [std::set<atom>] and [std::map] with atom keys rely on. *)
Theorem atom_lt_strict_weak_order t :
  (forall a, atom_lt t a a = false)
  /\ (forall a b, atom_lt t a b = true -> atom_lt t b a = false)
  /\ (forall a b c,
         atom_lt t a b = true -> atom_lt t b c = true -> atom_lt t a c = true)
  /\ (forall a b c,
         atom_lt t a b = false -> atom_lt t b a = false ->
         atom_lt t b c = false -> atom_lt t c b = false ->
         atom_lt t a c = false /\ atom_lt t c a = false).
Proof.
  unfold atom_lt. split; [|split; [|split]].
  - intros a. by rewrite strcmp_refl.
  - intros a b. rewrite !strcmp_lt_cstr. apply lex_lt_asym.
  - intros a b c. rewrite !strcmp_lt_cstr. apply lex_lt_trans.
  - intros a b c. rewrite !strcmp_lt_cstr. intros Hab Hba Hbc Hcb.
    rewrite (lex_lt_total _ _ Hab Hba), <- (lex_lt_total _ _ Hbc Hcb).
    by rewrite lex_lt_irrefl.
Qed.

Lemma compare_neg_iff t a b : compare t a b < 0 <-> atom_lt t a b = true.
Proof.
  unfold compare, atom_lt. rewrite Z.ltb_lt. case_decide as Hidx; [|done].
  unfold to_string. rewrite Hidx, strcmp_refl. lia.
Qed.

Lemma compare_pos_iff t a b : 0 < compare t a b <-> atom_lt t b a = true.
Proof.
  rewrite <- compare_neg_iff. unfold compare.
  rewrite (strcmp_antisym (to_string t a) (to_string t b)).
  repeat case_decide; try congruence; lia.
Qed.

Lemma compare_zero_iff t a b :
  compare t a b = 0 <-> atom_lt t a b = false /\ atom_lt t b a = false.
Proof.
  rewrite <- !not_true_iff_false, <- compare_neg_iff, <- compare_pos_iff.
  lia.
Qed.

(** [compare] does what its documentation says: it is 0 on equal atoms,
    negative exactly when [operator<] holds, positive exactly when
    [operator<] holds the other way round. *)
Theorem compare_agrees_with_lt t a b :
  (atom_eq a b = true -> compare t a b = 0)
  /\ (compare t a b < 0 <-> atom_lt t a b = true)
  /\ (0 < compare t a b <-> atom_lt t b a = true)
  /\ (compare t a b = 0 <->
      atom_lt t a b = false /\ atom_lt t b a = false).
Proof.
  split.
  - unfold atom_eq, compare. intros Heq%bool_decide_eq_true.
    by rewrite decide_True.
  - split; [apply compare_neg_iff|].
    split; [apply compare_pos_iff|apply compare_zero_iff].
Qed.

(** [operator==] on a [const char*] compares C strings: it holds exactly
    when the bytes of the atom up to its first NUL are the C string at
    [rhs], and [operator!=] is its negation. *)
Theorem atom_eq_cstr_iff t a rhs :
  (atom_eq_cstr t a rhs = true <-> cstr (to_string t a) = cstr rhs)
  /\ atom_ne_cstr t a rhs = negb (atom_eq_cstr t a rhs).
Proof.
  split; [|done]. unfold atom_eq_cstr.
  by rewrite Z.eqb_eq, strcmp_eq_cstr.
Qed.

(** ** Construction of atoms *)

Lemma atom_of_string_spec t s a t' :
  atom_table_wf t ->
  atom_of_string t s = Ret (a, t') ->
  atom_table_wf t'
  /\ atom_valid t' a
  /\ to_string t' a = s
  /\ (forall b, atom_valid t b ->
                atom_valid t' b /\ to_string t' b = to_string t b).
Proof.
  intros Hwf. unfold atom_of_string.
  destruct (atom_table_lookup t s) as [[i t'']| |] eqn:Hl; cbn; [|done..].
  intros [= <- <-].
  destruct (atom_table_lookup_wf _ _ _ _ Hwf Hl) as (Hwf' & Hi & Hkeep).
  split; [done|]. split; [by eapply lookup_lt_Some|]. split.
  - unfold to_string, atom_table_get. simpl. by rewrite Hi.
  - intros b Hb. pose proof (atom_valid_lookup _ _ Hb) as Hb'.
    apply Hkeep in Hb'. split; [by eapply lookup_lt_Some|].
    unfold to_string at 1, atom_table_get. by rewrite Hb'.
Qed.

(** Interning and reading back: the atom [atom(s)] returns reads back as
    [s], the table keeps its invariant, the atoms made before keep their
    bytes, and the new atom is [empty()] exactly when [s] is empty. *)
Theorem atom_of_string_roundtrip t s a t' :
  atom_table_wf t ->
  atom_of_string t s = Ret (a, t') ->
  atom_table_wf t'
  /\ atom_valid t' a
  /\ to_string t' a = s
  /\ atom_size t' a = length s
  /\ (atom_empty a = true <-> s = [])
  /\ (forall b, atom_valid t b ->
                atom_valid t' b /\ to_string t' b = to_string t b).
Proof.
  intros Hwf Hmk.
  destruct (atom_of_string_spec _ _ _ _ Hwf Hmk)
    as (Hwf' & Hval & Hs & Hkeep).
  split; [done|]. split; [done|]. split; [done|].
  split; [unfold atom_size; by rewrite Hs|]. split; [|done].
  unfold atom_empty. rewrite bool_decide_eq_true. split.
  - intros Hidx. apply atom_valid_lookup in Hval.
    destruct Hwf' as [H0 _ _]. rewrite Hidx, H0, Hs in Hval.
    by injection Hval.
  - intros ->. unfold atom_of_string, atom_table_lookup in Hmk.
    rewrite decide_True in Hmk by done. cbn in Hmk.
    by injection Hmk as <- _.
Qed.

(** An atom made from a C string holds the bytes before the first NUL, so
    none of its bytes is NUL, and it compares equal to that C string. *)
Theorem atom_of_cstr_nul_free t s a t' :
  atom_table_wf t ->
  atom_of_cstr t s = Ret (a, t') ->
  to_string t' a = cstr s
  /\ (NUL ∉ to_string t' a)
  /\ atom_eq_cstr t' a s = true
  /\ atom_ne_cstr t' a s = false.
Proof.
  intros Hwf Hmk.
  destruct (atom_of_string_spec _ _ _ _ Hwf Hmk) as (_ & _ & Hs & _).
  assert (atom_eq_cstr t' a s = true) as Heq.
  { unfold atom_eq_cstr. rewrite Z.eqb_eq, strcmp_eq_cstr, Hs.
    apply cstr_id, cstr_no_NUL. }
  split; [done|]. split; [rewrite Hs; apply cstr_no_NUL|].
  split; [done|]. unfold atom_ne_cstr. by rewrite Heq.
Qed.

(** For an interned atom, [empty()] says that the atom has no bytes, and
    that it is equal to the default atom. *)
Theorem atom_empty_iff t a :
  atom_table_wf t -> atom_valid t a ->
  (atom_empty a = true <-> atom_size t a = 0%nat)
  /\ (atom_empty a = true <-> atom_eq a atom_null = true).
Proof.
  intros Hwf Ha. split; [|done].
  unfold atom_empty. rewrite bool_decide_eq_true.
  pose proof (atom_valid_lookup _ _ Ha) as Hl.
  destruct Hwf as [H0 Hnd _]. unfold atom_size. split.
  - intros Hidx. rewrite Hidx, H0 in Hl. by injection Hl as <-.
  - intros Hlen%nil_length_inv. rewrite Hlen in Hl.
    by eapply NoDup_lookup.
Qed.

(** ** Decoding of atoms *)

Lemma load_at_1 buf idx b :
  buf !! idx = Some b -> load_at buf idx 1 = Ret [b].
Proof.
  intros Hb. unfold load_at.
  pose proof (lookup_lt_Some _ _ _ Hb).
  case_decide; [|lia]. f_equal.
  rewrite <- (take_drop_middle _ _ _ Hb).
  rewrite drop_app_length' by (rewrite length_take; lia). done.
Qed.

Lemma cast_be_singleton b : cast_be [b] = byte_to_Z b.
Proof. unfold cast_be. simpl. lia. Qed.

(** A tag byte other than [ERL_ATOM_EXT] and [ERL_SMALL_ATOM_EXT] makes the
    decoding constructor throw [err_decode_exception] with the offset it was
    called at; the atom table is not consulted. *)
Theorem atom_decode_bad_tag t buf idx b :
  buf !! idx = Some b ->
  byte_to_Z b <> ERL_ATOM_EXT ->
  byte_to_Z b <> ERL_SMALL_ATOM_EXT ->
  atom_decode t buf idx
  = Throw (err_decode_exception "Error decoding atom" idx).
Proof.
  intros Hb H1 H2. unfold atom_decode, get8, get_be.
  rewrite (load_at_1 _ _ _ Hb). cbn [mbind outcome_bind].
  rewrite cast_be_singleton. by rewrite !decide_False.
Qed.

(** Decoding is interning the payload: both wire forms of the bytes [s],
    the one with a 2-byte and the one with a 1-byte length, decode to the
    atom that [lookup(s)] gives, and leave the cursor behind the payload. *)
Theorem atom_decode_wire_forms t pre s post i t' :
  atom_table_lookup t s = Ret (i, t') ->
  atom_decode t
    (pre ++ be_bytes 1 ERL_ATOM_EXT ++ be_bytes 2 (Z.of_nat (length s))
         ++ s ++ post) (length pre)
  = Ret (mk_atom i, (length pre + 3 + length s)%nat, t')
  /\ atom_decode t
       (pre ++ be_bytes 1 ERL_SMALL_ATOM_EXT
            ++ be_bytes 1 (Z.of_nat (length s)) ++ s ++ post) (length pre)
     = Ret (mk_atom i, (length pre + 2 + length s)%nat, t').
Proof.
  intros Hl.
  assert (length s <= 255)%nat as Hlen.
  { unfold atom_table_lookup in Hl.
    destruct (decide (s = [])) as [->|]; [simpl; lia|].
    destruct (decide (255 < length s)%nat); [done|lia]. }
  unfold atom_decode, get8, get16be, get_be. split.
  - rewrite (load_at_app_at pre (be_bytes 1 ERL_ATOM_EXT)) by done.
    cbn [mbind outcome_bind]. rewrite cast_be_1 by done.
    rewrite decide_True by done.
    rewrite (app_assoc pre).
    rewrite (load_at_app_at _
               (be_bytes 2 (Z.of_nat (length s))))
      by (by rewrite length_app).
    cbn [mbind outcome_bind]. rewrite cast_be_2 by lia. rewrite Nat2Z.id.
    rewrite (app_assoc (pre ++ _)).
    rewrite (load_at_app_at _ s)
      by (rewrite !length_app, !length_be_bytes; lia).
    cbn [mbind outcome_bind]. rewrite Hl. cbn. do 3 f_equal. lia.
  - rewrite (load_at_app_at pre (be_bytes 1 ERL_SMALL_ATOM_EXT)) by done.
    cbn [mbind outcome_bind]. rewrite cast_be_1 by done.
    rewrite decide_False by done. rewrite decide_True by done.
    rewrite (app_assoc pre).
    rewrite (load_at_app_at _
               (be_bytes 1 (Z.of_nat (length s))))
      by (by rewrite length_app).
    cbn [mbind outcome_bind]. rewrite cast_be_1 by lia. rewrite Nat2Z.id.
    rewrite (app_assoc (pre ++ _)).
    rewrite (load_at_app_at _ s)
      by (rewrite !length_app, !length_be_bytes; lia).
    cbn [mbind outcome_bind]. rewrite Hl. cbn. do 3 f_equal. lia.
Qed.

Lemma load_at_drop buf p n bs :
  load_at buf p n = Ret bs -> drop p buf = bs ++ drop (p + n) buf.
Proof.
  intros (_ & -> & _)%load_at_inv.
  by rewrite <- drop_drop, take_drop.
Qed.

Lemma decode_layout buf idx tagb lenbs s :
  load_at buf idx 1 = Ret [tagb] ->
  load_at buf (idx + 1) (length lenbs) = Ret lenbs ->
  load_at buf (idx + 1 + length lenbs) (length s) = Ret s ->
  buf = take idx buf ++ [tagb] ++ lenbs ++ s
        ++ drop (idx + 1 + length lenbs + length s) buf
  /\ length (take idx buf) = idx.
Proof.
  intros H1 H2 H3.
  pose proof (load_at_inv _ _ _ _ H1) as (Hroom & _).
  apply load_at_drop in H1, H2, H3.
  split; [|rewrite length_take; lia].
  rewrite <- H3, <- H2, <- H1. by rewrite take_drop.
Qed.

(** What a successful decoding has read: the tag, the length bytes and the
    payload, laid out one after the other at the cursor. *)
Lemma atom_decode_inv t buf idx a idx' t' :
  atom_decode t buf idx = Ret (a, idx', t') ->
  exists tagb lenbs s,
    buf = take idx buf ++ [tagb] ++ lenbs ++ s ++ drop idx' buf
    /\ length (take idx buf) = idx
    /\ ((byte_to_Z tagb = ERL_ATOM_EXT /\ length lenbs = 2%nat)
        \/ (byte_to_Z tagb = ERL_SMALL_ATOM_EXT /\ length lenbs = 1%nat))
    /\ cast_be lenbs = Z.of_nat (length s)
    /\ atom_table_lookup t s = Ret (m_index a, t')
    /\ idx' = (idx + 1 + length lenbs + length s)%nat.
Proof.
  unfold atom_decode, get8, get16be, get_be.
  destruct (load_at buf idx 1) as [bs1| |] eqn:H1; cbn [mbind outcome_bind];
    [|done..].
  pose proof (load_at_inv _ _ _ _ H1) as (_ & _ & Hlen1).
  destruct bs1 as [|tagb [|? ?]]; try done.
  rewrite cast_be_singleton.
  destruct (decide (byte_to_Z tagb = ERL_ATOM_EXT)) as [Ht|Ht];
    [|destruct (decide (byte_to_Z tagb = ERL_SMALL_ATOM_EXT)) as [Ht'|Ht'];
      [|done]].
  - destruct (load_at buf (idx + 1) 2) as [lenbs| |] eqn:H2;
      cbn [mbind outcome_bind]; [|done..].
    pose proof (load_at_inv _ _ _ _ H2) as (_ & _ & Hlen2).
    destruct (load_at buf (idx + 1 + 2) _) as [s| |] eqn:H3;
      cbn [mbind outcome_bind]; [|done..].
    pose proof (load_at_inv _ _ _ _ H3) as (_ & _ & Hlen3).
    destruct (atom_table_lookup t s) as [[i t'']| |] eqn:Hl;
      cbn [mbind outcome_bind]; [|done..].
    intros [= <- <- <-]. exists tagb, lenbs, s.
    assert (load_at buf (idx + 1) (length lenbs) = Ret lenbs) as H2'
      by (by rewrite Hlen2).
    assert (load_at buf (idx + 1 + length lenbs) (length s) = Ret s) as H3'
      by (by rewrite Hlen2, Hlen3).
    destruct (decode_layout _ _ _ _ _ H1 H2' H3') as [Hbuf Hpre].
    pose proof (cast_be_range lenbs).
    replace (idx + (idx + 1 + 2 + Z.to_nat (cast_be lenbs) - idx))%nat
      with (idx + 1 + length lenbs + length s)%nat by lia.
    repeat split; try done; [auto|lia].
  - destruct (load_at buf (idx + 1) 1) as [lenbs| |] eqn:H2;
      cbn [mbind outcome_bind]; [|done..].
    pose proof (load_at_inv _ _ _ _ H2) as (_ & _ & Hlen2).
    destruct (load_at buf (idx + 1 + 1) _) as [s| |] eqn:H3;
      cbn [mbind outcome_bind]; [|done..].
    pose proof (load_at_inv _ _ _ _ H3) as (_ & _ & Hlen3).
    destruct (atom_table_lookup t s) as [[i t'']| |] eqn:Hl;
      cbn [mbind outcome_bind]; [|done..].
    intros [= <- <- <-]. exists tagb, lenbs, s.
    assert (load_at buf (idx + 1) (length lenbs) = Ret lenbs) as H2'
      by (by rewrite Hlen2).
    assert (load_at buf (idx + 1 + length lenbs) (length s) = Ret s) as H3'
      by (by rewrite Hlen2, Hlen3).
    destruct (decode_layout _ _ _ _ _ H1 H2' H3') as [Hbuf Hpre].
    pose proof (cast_be_range lenbs).
    replace (idx + (idx + 1 + 1 + Z.to_nat (cast_be lenbs) - idx))%nat
      with (idx + 1 + length lenbs + length s)%nat by lia.
    repeat split; try done; [auto|lia].
Qed.

(** Decoding and encoding back.  After a successful decoding the table
    keeps its invariant, the atom is interned and the cursor is inside the
    buffer.  If the bytes were in the [ERL_ATOM_EXT] form, encoding the atom
    at the old cursor writes the very bytes that were read, and the cursor
    moved by [encode_size]; the [ERL_SMALL_ATOM_EXT] form is one byte
    shorter than what [encode] emits. *)
Theorem atom_decode_encode_roundtrip t buf idx a idx' t' :
  atom_table_wf t ->
  atom_decode t buf idx = Ret (a, idx', t') ->
  atom_table_wf t'
  /\ atom_valid t' a
  /\ (idx' <= length buf)%nat
  /\ forall b, buf !! idx = Some b ->
       (byte_to_Z b = ERL_ATOM_EXT ->
        idx' = (idx + encode_size t' a)%nat
        /\ encode t' a buf idx = Ret (buf, idx'))
       /\ (byte_to_Z b = ERL_SMALL_ATOM_EXT ->
           S idx' = (idx + encode_size t' a)%nat).
Proof.
  intros Hwf Hdec.
  destruct (atom_decode_inv _ _ _ _ _ _ Hdec)
    as (tagb & lenbs & s & Hbuf & Hpre & Htag & Hlen & Hl & Hidx').
  destruct (atom_table_lookup_wf _ _ _ _ Hwf Hl) as (Hwf' & Hi & _).
  assert (atom_valid t' a) as Hval by (by eapply lookup_lt_Some).
  assert (to_string t' a = s) as Hs.
  { unfold to_string, atom_table_get. by rewrite Hi. }
  assert (encode_size t' a = (3 + length s)%nat) as Hsize.
  { unfold encode_size, atom_length, atom_size. by rewrite Hs. }
  assert (idx' <= length buf)%nat as Hin.
  { rewrite Hbuf, !length_app. simpl. rewrite Hpre. lia. }
  split; [done|]. split; [done|]. split; [done|].
  intros b Hb.
  assert (b = tagb) as ->.
  { rewrite Hbuf in Hb. rewrite lookup_app_r in Hb by lia.
    rewrite Hpre, Nat.sub_diag in Hb. by injection Hb. }
  split.
  - intros Ht. destruct Htag as [[_ Hl2]|[Ht' _]];
      [|rewrite Ht in Ht'; done].
    split; [lia|].
    set (pre := take idx buf) in *. set (post := drop idx' buf) in *.
    clearbody pre post. subst idx.
    assert (atom_ext t' a = [tagb] ++ lenbs ++ s) as Hext.
    { unfold atom_ext, atom_length, atom_size. rewrite Hs, <- Hlen, <- Ht.
      rewrite <- Hl2, be_bytes_cast_be.
      by rewrite <- (be_bytes_cast_be [tagb]), cast_be_singleton. }
    rewrite Hbuf at 1.
    replace (pre ++ [tagb] ++ lenbs ++ s ++ post)
      with (pre ++ ([tagb] ++ lenbs ++ s) ++ post)
      by (by rewrite <- !app_assoc).
    rewrite encode_writes; [|done|done|rewrite !length_app; simpl; lia].
    rewrite Hext. do 2 f_equal; [by rewrite Hbuf, <- !app_assoc|lia].
  - intros Ht. destruct Htag as [[Ht' _]|[_ Hl1]];
      [rewrite Ht in Ht'; done|]. lia.
Qed.

(** ** Node names *)

(** What [make_node_name] returns is usable as a node name as far as the
    length goes: the atom reads back as [s], has between 1 and [MAXNODELEN]
    bytes, is not the empty atom, and [s] does not start with the
    separator. *)
Theorem make_node_name_result t s a t' :
  atom_table_wf t ->
  make_node_name t s = Ret (a, t') ->
  to_string t' a = s
  /\ (1 <= atom_size t' a <= MAXNODELEN)%nat
  /\ atom_empty a = false
  /\ head s <> Some AT_SIGN
  /\ atom_table_wf t'
  /\ check_node_length (atom_size t' a) = Ret tt.
Proof.
  intros Hwf. unfold make_node_name.
  destruct (string_find s AT_SIGN =? 0) eqn:Hfind; [done|].
  assert (check_node_length (length s) = Ret tt ->
          (1 <= length s <= MAXNODELEN)%nat) as Hchk.
  { unfold check_node_length. repeat case_decide; try done. lia. }
  destruct (check_node_length (length s)) as [[]| |] eqn:Hlen; cbn; [|done..].
  intros Hmk.
  destruct (atom_of_string_spec _ _ _ _ Hwf Hmk)
    as (Hwf' & Hval & Hs & _).
  assert (atom_size t' a = length s) as Hsz
    by (unfold atom_size; by rewrite Hs).
  specialize (Hchk eq_refl).
  split; [done|]. split; [by rewrite Hsz|]. split.
  { destruct (atom_empty a) eqn:Hemp; [|done].
    apply bool_decide_eq_true in Hemp. apply atom_valid_lookup in Hval.
    destruct Hwf' as [H0 _ _]. rewrite Hemp, H0, Hs in Hval.
    injection Hval as <-. simpl in Hchk. lia. }
  split; [|split; [done|by rewrite Hsz]].
  intros Hhd. destruct s as [|c s]; [done|]. injection Hhd as ->.
  by vm_compute in Hfind.
Qed.

(** ** Printing of atoms *)

Lemma strchr_cstr s c : c <> NUL -> strchr s c = true <-> c ∈ cstr s.
Proof.
  intros Hc. induction s as [|x s IH].
  - simpl. rewrite bool_decide_eq_true, cstr_nil.
    split; [done|by intros ?%not_elem_of_nil].
  - simpl. destruct (decide (x = c)) as [->|Hxc].
    + rewrite cstr_cons by done.
      split; [intros _; apply elem_of_cons; by left|done].
    + destruct (decide (x = NUL)) as [->|Hx].
      * rewrite cstr_NUL. split; [done|by intros ?%not_elem_of_nil].
      * rewrite cstr_cons, elem_of_cons, IH by done.
        split; [by right|]. by intros [->|].
Qed.

Lemma char_outside_lower signed c :
  (char_value signed c <? char_value signed LOWER_A)
  || (char_value signed LOWER_Z <? char_value signed c)
  = negb ((97 <=? byte_to_Z c) && (byte_to_Z c <=? 122)).
Proof.
  pose proof (byte_to_Z_range c) as Hr.
  unfold char_value.
  change (byte_to_Z LOWER_A) with 97. change (byte_to_Z LOWER_Z) with 122.
  change (128 <=? 97) with false. change (128 <=? 122) with false.
  rewrite !andb_false_r.
  destruct signed, (Z.leb_spec 128 (byte_to_Z c)); simpl;
    destruct (Z.leb_spec 97 (byte_to_Z c)),
      (Z.leb_spec (byte_to_Z c) 122); simpl;
    repeat match goal with
           | |- context [?x <? ?y] => destruct (Z.ltb_spec x y)
           end; simpl; try done; lia.
Qed.

(** [dump] writes the C string of the atom, bare or between single quotes.
    It is bare exactly when the atom is not the empty atom, its first byte
    is a lower-case ASCII letter and the C string has no space; the result
    does not depend on whether plain [char] is signed. *)
Theorem dump_quoting signed t a :
  dump signed t a = dump false t a
  /\ (dump signed t a = cstr (to_string t a)
      \/ dump signed t a = [QUOTE] ++ cstr (to_string t a) ++ [QUOTE])
  /\ (dump signed t a = cstr (to_string t a)
      <-> atom_empty a = false
          /\ 97 <= byte_to_Z (hd NUL (to_string t a)) <= 122
          /\ SPACE ∉ cstr (to_string t a)).
Proof.
  assert (Hcond : forall sg,
    atom_empty a
    || (char_value sg (hd NUL (to_string t a)) <? char_value sg LOWER_A)
    || (char_value sg LOWER_Z <? char_value sg (hd NUL (to_string t a)))
    || strchr (to_string t a) SPACE
    = false
    <-> atom_empty a = false
        /\ 97 <= byte_to_Z (hd NUL (to_string t a)) <= 122
        /\ SPACE ∉ cstr (to_string t a)).
  { intros sg. rewrite <- !orb_assoc, (orb_assoc (_ <? _)).
    rewrite char_outside_lower, !orb_false_iff, negb_false_iff.
    rewrite andb_true_iff, !Z.leb_le.
    rewrite <- (strchr_cstr _ SPACE) by done.
    by rewrite not_true_iff_false. }
  pose proof (Hcond signed) as Hs. pose proof (Hcond false) as Hf.
  clear Hcond. unfold dump.
  set (cs := atom_empty a
     || (char_value signed (hd NUL (to_string t a))
         <? char_value signed LOWER_A)
     || (char_value signed LOWER_Z
         <? char_value signed (hd NUL (to_string t a)))
     || strchr (to_string t a) SPACE) in *.
  set (cf := atom_empty a
     || (char_value false (hd NUL (to_string t a))
         <? char_value false LOWER_A)
     || (char_value false LOWER_Z
         <? char_value false (hd NUL (to_string t a)))
     || strchr (to_string t a) SPACE) in *.
  assert (cs = cf) as Hsf.
  { destruct cs, cf; try done.
    - destruct Hs as [_ Hs], Hf as [Hf _]. by rewrite Hs; [|apply Hf].
    - destruct Hs as [Hs _], Hf as [_ Hf]. by rewrite Hf; [|apply Hs]. }
  rewrite <- Hsf. split; [done|].
  destruct cs.
  - split; [by right|]. split.
    + intros Heq. apply (f_equal length) in Heq.
      rewrite !length_app in Heq. simpl in Heq. lia.
    + intros Hc. by apply Hs in Hc.
  - split; [by left|]. split; [|done]. intros _. by apply Hs.
Qed.

(** ** Ports as keys *)

(** [operator<] of ports, spelled out: the node names are compared as C
    strings, greater first, then the ids, then the creations. *)
Lemma port_lt_spec t p q :
  port.lt t p q = true
  <-> lex_lt (cstr (to_string t (port.node q)))
             (cstr (to_string t (port.node p))) = true
      \/ (cstr (to_string t (port.node p)) = cstr (to_string t (port.node q))
          /\ (port.id p < port.id q
              \/ (port.id p = port.id q
                  /\ port.creation p < port.creation q))).
Proof.
  pose proof (compare_neg_iff t (port.node p) (port.node q)) as Hneg.
  pose proof (compare_pos_iff t (port.node p) (port.node q)) as Hpos.
  pose proof (compare_zero_iff t (port.node p) (port.node q)) as Hzero.
  unfold atom_lt in *. rewrite !strcmp_lt_cstr in *.
  unfold port.lt.
  destruct (Z.ltb_spec 0 (compare t (port.node p) (port.node q))) as [Hn|Hn].
  { apply Hpos in Hn. split; [by left|done]. }
  destruct (Z.ltb_spec (compare t (port.node p) (port.node q)) 0) as [Hn'|Hn'].
  { apply Hneg in Hn'. split; [done|].
    intros [Hlt|[Heq _]].
    - by rewrite (lex_lt_asym _ _ Hn') in Hlt.
    - by rewrite Heq, lex_lt_irrefl in Hn'. }
  assert (compare t (port.node p) (port.node q) = 0) as H0 by lia.
  apply Hzero in H0 as [H1 H2].
  pose proof (lex_lt_total _ _ H1 H2) as Hk.
  rewrite H2.
  destruct (Z.ltb_spec (port.id p) (port.id q)),
    (Z.ltb_spec (port.id q) (port.id p)),
    (Z.ltb_spec (port.creation p) (port.creation q)),
    (Z.ltb_spec (port.creation q) (port.creation p));
    split; try done; try (intros _; right; split; [done|lia]);
    intros [?|[_ ?]]; try done; lia.
Qed.

Lemma port_lt_false t p q :
  port.lt t p q = false -> port.lt t q p = false ->
  cstr (to_string t (port.node p)) = cstr (to_string t (port.node q))
  /\ port.id p = port.id q /\ port.creation p = port.creation q.
Proof.
  intros Hpq Hqp.
  apply not_true_iff_false in Hpq, Hqp.
  rewrite port_lt_spec in Hpq, Hqp.
  assert (cstr (to_string t (port.node p))
          = cstr (to_string t (port.node q))) as Hk.
  { apply lex_lt_total.
    - apply not_true_iff_false. intros E. apply Hqp. by left.
    - apply not_true_iff_false. intros E. apply Hpq. by left. }
  split; [done|].
  destruct (Z.lt_trichotomy (port.id p) (port.id q)) as [?|[Hid|?]].
  - exfalso. apply Hpq. right. split; [done|]. by left.
  - split; [done|].
    destruct (Z.lt_trichotomy (port.creation p) (port.creation q))
      as [?|[?|?]]; [|done|].
    + exfalso. apply Hpq. right. split; [done|]. right. by split.
    + exfalso. apply Hqp. right. split; [done|]. right. by split.
  - exfalso. apply Hqp. right. split; [done|]. by left.
Qed.

Lemma port_lt_irrefl t p : port.lt t p p = false.
Proof.
  apply not_true_iff_false. rewrite port_lt_spec.
  rewrite lex_lt_irrefl. intros [?|[_ ?]]; [done|lia].
Qed.

Lemma port_lt_trans t p q r :
  port.lt t p q = true -> port.lt t q r = true -> port.lt t p r = true.
Proof.
  rewrite !port_lt_spec.
  intros [H1|[K1 T1]] [H2|[K2 T2]].
  - left. by eapply lex_lt_trans.
  - left. by rewrite <- K2.
  - left. by rewrite K1.
  - right. split; [congruence|lia].
Qed.

Lemma port_lt_asym t p q : port.lt t p q = true -> port.lt t q p = false.
Proof.
  intros Hpq. destruct (port.lt t q p) eqn:Hqp; [|done].
  pose proof (port_lt_trans _ _ _ _ Hpq Hqp) as H.
  by rewrite port_lt_irrefl in H.
Qed.

Lemma port_lt_same t p q :
  cstr (to_string t (port.node p)) = cstr (to_string t (port.node q)) ->
  port.id p = port.id q -> port.creation p = port.creation q ->
  port.lt t p q = false.
Proof.
  intros Hk Hid Hcr. apply not_true_iff_false. rewrite port_lt_spec.
  rewrite Hk, lex_lt_irrefl. intros [?|[_ ?]]; [done|lia].
Qed.

Lemma port_eq_iff p q :
  port.eq p q = true
  <-> port.node p = port.node q /\ port.id p = port.id q
      /\ port.creation p = port.creation q.
Proof.
  unfold port.eq, atom_eq.
  rewrite !andb_true_iff, bool_decide_eq_true, !Z.eqb_eq.
  destruct (port.node p) as [i], (port.node q) as [j]. simpl.
  split; [intros [[? ->] ?]; by repeat split|].
  intros ([= ->] & ? & ?). by repeat split.
Qed.

(** [operator<] of ports is a strict weak ordering on every table and for
    every node name: irreflexive, asymmetric, transitive, with a transitive
    "unordered either way"; and ports that are [==] are unordered.  This is
    what [std::set<port>] and the maps keyed by ports rely on. *)
Theorem port_lt_strict_weak_order t :
  (forall p, port.lt t p p = false)
  /\ (forall p q, port.lt t p q = true -> port.lt t q p = false)
  /\ (forall p q r,
         port.lt t p q = true -> port.lt t q r = true ->
         port.lt t p r = true)
  /\ (forall p q r,
         port.lt t p q = false -> port.lt t q p = false ->
         port.lt t q r = false -> port.lt t r q = false ->
         port.lt t p r = false /\ port.lt t r p = false)
  /\ (forall p q,
         port.eq p q = true ->
         port.lt t p q = false /\ port.lt t q p = false).
Proof.
  split; [apply port_lt_irrefl|]. split; [apply port_lt_asym|].
  split; [apply port_lt_trans|]. split.
  - intros p q r Hpq Hqp Hqr Hrq.
    destruct (port_lt_false _ _ _ Hpq Hqp) as (K1 & I1 & C1).
    destruct (port_lt_false _ _ _ Hqr Hrq) as (K2 & I2 & C2).
    split; apply port_lt_same; congruence.
  - intros p q (Hn & Hid & Hcr)%port_eq_iff.
    split; apply port_lt_same; try done; by rewrite Hn.
Qed.

(** [operator==] of ports is an equivalence relation, and it holds exactly
    when the three accessors agree. *)
Theorem port_eq_equivalence :
  (forall p, port.eq p p = true)
  /\ (forall p q, port.eq p q = port.eq q p)
  /\ (forall p q r,
         port.eq p q = true -> port.eq q r = true -> port.eq p r = true)
  /\ (forall p q,
         port.eq p q = true
         <-> port.node p = port.node q /\ port.id p = port.id q
             /\ port.creation p = port.creation q).
Proof.
  split; [intros p; by apply port_eq_iff|]. split; [|split].
  - intros p q. destruct (port.eq p q) eqn:Hpq, (port.eq q p) eqn:Hqp;
      try done.
    + apply port_eq_iff in Hpq as (? & ? & ?).
      apply not_true_iff_false in Hqp. exfalso.
      apply Hqp, port_eq_iff. by repeat split.
    + apply port_eq_iff in Hqp as (? & ? & ?).
      apply not_true_iff_false in Hpq. exfalso.
      apply Hpq, port_eq_iff. by repeat split.
  - intros p q r (? & ? & ?)%port_eq_iff (? & ? & ?)%port_eq_iff.
    apply port_eq_iff. repeat split; congruence.
  - apply port_eq_iff.
Qed.

(** ** Construction of ports *)

Lemma check_node_length_inv len :
  check_node_length len = Ret tt -> (1 <= len <= MAXNODELEN)%nat.
Proof. unfold check_node_length. repeat case_decide; try done. lia. Qed.

(** A port cannot be built on the empty atom, and a port that was built is
    never equal to the default port: its node is the atom it was given,
    which has at least one byte. *)
Theorem port_of_atom_not_null t node id creation :
  atom_table_wf t -> atom_valid t node ->
  port.of_atom t atom_null id creation
  = Throw (err_bad_argument "Empty node name")
  /\ forall p,
       port.of_atom t node id creation = Ret p ->
       p = port.init node id (to_uint8 creation)
       /\ port.node p = node
       /\ (1 <= atom_size t node <= MAXNODELEN)%nat
       /\ atom_empty node = false
       /\ port.eq p port.null = false
       /\ port.eq port.null p = false.
Proof.
  intros Hwf Hval. split.
  - unfold port.of_atom, atom_size, to_string, atom_table_get. simpl.
    destruct Hwf as [-> _ _]. done.
  - intros p. unfold port.of_atom.
    destruct (check_node_length _) as [[]| |] eqn:Hchk; cbn; [|done..].
    intros [= <-]. apply check_node_length_inv in Hchk.
    assert (atom_empty node = false) as Hne.
    { destruct (atom_empty node) eqn:He; [|done].
      apply bool_decide_eq_true in He.
      destruct Hwf as [H0 _ _].
      unfold atom_size, to_string, atom_table_get in Hchk.
      rewrite He, H0 in Hchk. simpl in Hchk. lia. }
    repeat split; try done; try lia.
    + unfold port.eq. simpl. unfold atom_eq.
      unfold atom_empty in Hne. simpl. rewrite Hne.
      by rewrite andb_false_r.
    + unfold port.eq. simpl. unfold atom_eq. simpl.
      apply bool_decide_eq_false in Hne.
      rewrite bool_decide_eq_false_2 by congruence.
      by rewrite andb_false_r.
Qed.

Lemma cstr_take_strlen p : take (strlen p) p = cstr p.
Proof. done. Qed.

Lemma length_cstr p : length (cstr p) = strlen p.
Proof.
  induction p as [|c p IH]; [done|].
  destruct (decide (c = NUL)) as [->|Hc]; [done|].
  rewrite cstr_cons by done. simpl. rewrite decide_False by done.
  by rewrite IH.
Qed.

Lemma port_of_cstr_spec t node id creation p t' :
  atom_table_wf t ->
  port.of_cstr t node id creation = Ret (p, t') ->
  atom_table_wf t'
  /\ atom_valid t' (port.node p)
  /\ to_string t' (port.node p) = cstr node
  /\ (1 <= strlen node <= MAXNODELEN)%nat
  /\ port.id p = id mod 2 ^ 28
  /\ port.creation p = creation mod 4
  /\ (forall b, atom_valid t b ->
                atom_valid t' b /\ to_string t' b = to_string t b).
Proof.
  intros Hwf. unfold port.of_cstr.
  destruct (check_node_length _) as [[]| |] eqn:Hchk; cbn; [|done..].
  apply check_node_length_inv in Hchk.
  destruct (atom_of_string t _) as [[l_node t'']| |] eqn:Hmk; cbn; [|done..].
  intros [= <- <-].
  destruct (atom_of_string_spec _ _ _ _ Hwf Hmk)
    as (Hwf' & Hval & Hs & Hkeep).
  simpl. rewrite creation_low_2, land_low_28.
  do 6 (split; [done|]). done.
Qed.

(** A port built from a C string holds a node name without NUL byte of
    between 1 and [MAXNODELEN] bytes, the bytes before the first NUL, and is
    never equal to the default port. *)
Theorem port_of_cstr_result t node id creation p t' :
  atom_table_wf t ->
  port.of_cstr t node id creation = Ret (p, t') ->
  atom_table_wf t'
  /\ atom_valid t' (port.node p)
  /\ to_string t' (port.node p) = cstr node
  /\ (NUL ∉ to_string t' (port.node p))
  /\ (1 <= atom_size t' (port.node p) <= MAXNODELEN)%nat
  /\ port.eq p port.null = false.
Proof.
  intros Hwf Hmk.
  destruct (port_of_cstr_spec _ _ _ _ _ _ Hwf Hmk)
    as (Hwf' & Hval & Hs & Hlen & _ & _ & _).
  split; [done|]. split; [done|]. split; [done|].
  split; [rewrite Hs; apply cstr_no_NUL|].
  assert (atom_size t' (port.node p) = strlen node) as Hsz
    by (unfold atom_size; by rewrite Hs, length_cstr).
  split; [by rewrite Hsz|].
  apply not_true_iff_false. intros (Hn & _)%port_eq_iff.
  destruct Hwf' as [H0 _ _].
  unfold atom_size, to_string, atom_table_get in Hsz.
  rewrite Hn in Hsz. simpl in Hsz. rewrite H0 in Hsz. simpl in Hsz. lia.
Qed.

(** Ports built from C strings are totally ordered, consistently with
    [==]: of two such ports, exactly one of [p < q], [q < p], [p == q]
    holds. *)
Theorem port_of_cstr_trichotomy t n1 i1 c1 p t1 n2 i2 c2 q t2 :
  atom_table_wf t ->
  port.of_cstr t n1 i1 c1 = Ret (p, t1) ->
  port.of_cstr t1 n2 i2 c2 = Ret (q, t2) ->
  exactly_one (port.lt t2 p q) (port.lt t2 q p) (port.eq p q).
Proof.
  intros Hwf Hp Hq.
  destruct (port_of_cstr_spec _ _ _ _ _ _ Hwf Hp)
    as (Hwf1 & Hvp & Hsp & _).
  destruct (port_of_cstr_spec _ _ _ _ _ _ Hwf1 Hq)
    as (Hwf2 & Hvq & Hsq & _ & _ & _ & Hkeep).
  destruct (Hkeep _ Hvp) as [Hvp2 Hsp2]. rewrite Hsp in Hsp2.
  unfold exactly_one.
  destruct (port.lt t2 p q) eqn:Hpq.
  { left. split; [done|]. split; [by apply port_lt_asym|].
    apply not_true_iff_false. intros (Hn & Hid & Hcr)%port_eq_iff.
    rewrite port_lt_same in Hpq; [done| |done..]. by rewrite Hn. }
  destruct (port.lt t2 q p) eqn:Hqp.
  { right. left. split; [done|]. split; [done|].
    apply not_true_iff_false. intros (Hn & Hid & Hcr)%port_eq_iff.
    rewrite port_lt_same in Hqp; [done| |done..]. by rewrite Hn. }
  right. right. split; [done|]. split; [done|].
  destruct (port_lt_false _ _ _ Hpq Hqp) as (Hk & Hid & Hcr).
  apply port_eq_iff. split; [|done].
  rewrite Hsp2, Hsq in Hk.
  rewrite (cstr_id (cstr n1)), (cstr_id (cstr n2)) in Hk
    by apply cstr_no_NUL.
  assert (m_index (port.node p) = m_index (port.node q)) as Hidx.
  { apply (atom_index_eq_iff t2); try done. by rewrite Hsp2, Hsq. }
  destruct (port.node p), (port.node q). simpl in Hidx. by rewrite Hidx.
Qed.

(** The accessors of a constructed port return values in range, ports
    built from ids that agree modulo 2^28 and creations that agree modulo 4
    are the same port, and building a port again from what the accessors
    return gives the same port. *)
Theorem port_init_canonical node id creation :
  0 <= port.id (port.init node id (to_uint8 creation)) < 2 ^ 28
  /\ 0 <= port.creation (port.init node id (to_uint8 creation)) < 4
  /\ (forall id' creation',
         id' mod 2 ^ 28 = id mod 2 ^ 28 ->
         creation' mod 4 = creation mod 4 ->
         port.init node id' (to_uint8 creation')
         = port.init node id (to_uint8 creation))
  /\ port.init (port.node (port.init node id (to_uint8 creation)))
               (port.id (port.init node id (to_uint8 creation)))
               (to_uint8 (port.creation
                            (port.init node id (to_uint8 creation))))
     = port.init node id (to_uint8 creation).
Proof.
  assert (Hcong : forall id' creation',
             id' mod 2 ^ 28 = id mod 2 ^ 28 ->
             creation' mod 4 = creation mod 4 ->
             port.init node id' (to_uint8 creation')
             = port.init node id (to_uint8 creation)).
  { intros id' creation' Hid Hcr. unfold port.init.
    by rewrite !creation_low_2, !land_low_28, Hid, Hcr. }
  simpl. rewrite creation_low_2, land_low_28.
  split; [apply Z.mod_pos_bound; lia|].
  split; [apply Z.mod_pos_bound; lia|]. split; [done|].
  rewrite <- (Hcong (id mod 2 ^ 28) (creation mod 4))
    by (by rewrite Z.mod_mod).
  unfold port.init. by rewrite !creation_low_2, !land_low_28.
Qed.

(** ** Deliveries to a mailbox *)

Section mailbox_deliveries.

Context {eterm : Type}.
Implicit Types (mb : mailbox eterm) (a_msg : transport_msg eterm).

(** [do_deliver] keeps the queue in order and touches nothing but the
    links, the monitors and the queue: the queue is as before, or has the
    message, or the message with its error flag set, appended at the end;
    the messages already queued stay in place. *)
Theorem do_deliver_queue_discipline mb a_msg mb' :
  do_deliver mb a_msg = Ret mb' ->
  (m_queue mb' = m_queue mb
   \/ m_queue mb' = m_queue mb ++ [a_msg]
   \/ m_queue mb' = m_queue mb ++ [set_error_flag a_msg])
  /\ self mb' = self mb
  /\ m_name mb' = m_name mb
  /\ m_time_freed mb' = m_time_freed mb
  /\ m_node mb' = m_node mb.
Proof.
  unfold do_deliver, dispatch, sender_pid, get_ref.
  destruct (type a_msg), (m_sender_pid a_msg), (m_ref a_msg); cbn;
    intros [= <-]; simpl; auto 10.
Qed.

(** The four bookkeeping messages are consumed: a [LINK], [UNLINK],
    [MONITOR_P] or [DEMONITOR_P] whose fields can be read never reaches the
    queue. *)
Theorem do_deliver_control_dropped mb a_msg (s : epid) (r : ref) :
  type a_msg = LINK \/ type a_msg = UNLINK
  \/ type a_msg = MONITOR_P \/ type a_msg = DEMONITOR_P ->
  m_sender_pid a_msg = inr s ->
  m_ref a_msg = inr r ->
  exists mb', do_deliver mb a_msg = Ret mb' /\ m_queue mb' = m_queue mb.
Proof.
  intros Hty Hs Hr. unfold do_deliver, dispatch, sender_pid, get_ref.
  rewrite Hs, Hr.
  destruct Hty as [-> |[-> |[-> | ->]]]; cbn; eauto.
Qed.

(** Linking and unlinking: after a [LINK] from [s] the sender is linked,
    after a following [UNLINK] from [s] it is not, whether or not it was
    linked to begin with; the other links and the queue are as before. *)
Theorem do_deliver_link_unlink mb l u (s : epid) :
  type l = LINK -> type u = UNLINK ->
  m_sender_pid l = inr s -> m_sender_pid u = inr s ->
  exists mb1 mb2,
    do_deliver mb l = Ret mb1
    /\ m_links mb1 = {[s]} ∪ m_links mb
    /\ do_deliver mb1 u = Ret mb2
    /\ m_links mb2 = m_links mb ∖ {[s]}
    /\ (s ∉ m_links mb2)
    /\ m_monitors mb2 = m_monitors mb
    /\ m_queue mb2 = m_queue mb.
Proof.
  intros Hl Hu Hsl Hsu. unfold do_deliver, dispatch, sender_pid.
  rewrite Hl, Hu, Hsl, Hsu. cbn.
  eexists _, _. split; [done|]. split; [done|]. split; [done|].
  simpl.
  assert (({[s]} ∪ m_links mb) ∖ {[s]} = m_links mb ∖ {[s]}) as ->.
  { apply set_eq. intros x.
    rewrite !elem_of_difference, elem_of_union, elem_of_singleton. tauto. }
  split; [done|]. split; [|done].
  rewrite elem_of_difference, elem_of_singleton. tauto.
Qed.

(** Monitors are keyed by reference and the first entry wins: a
    [MONITOR_P] for a reference that is already monitored changes nothing,
    for a new reference it records the sender; no other entry changes. *)
Theorem do_deliver_monitor_first_wins mb a_msg (r : ref) (s : epid) :
  type a_msg = MONITOR_P ->
  m_ref a_msg = inr r -> m_sender_pid a_msg = inr s ->
  exists mb',
    do_deliver mb a_msg = Ret mb'
    /\ (m_monitors mb !! r = None -> m_monitors mb' !! r = Some s)
    /\ (forall p, m_monitors mb !! r = Some p ->
                  m_monitors mb' = m_monitors mb)
    /\ (forall r', r' <> r -> m_monitors mb' !! r' = m_monitors mb !! r')
    /\ m_links mb' = m_links mb
    /\ m_queue mb' = m_queue mb.
Proof.
  intros Hty Hr Hs. unfold do_deliver, dispatch, sender_pid, get_ref.
  rewrite Hty, Hr, Hs. cbn. eexists. split; [done|]. simpl.
  unfold map_insert.
  destruct (m_monitors mb !! r) as [p|] eqn:Hm.
  - by repeat split.
  - split; [intros _; apply lookup_insert_eq|]. split; [done|].
    split; [|done]. intros r' Hne. by apply lookup_insert_ne.
Qed.

(** [DEMONITOR_P] and [MONITOR_P_EXIT] remove the entry of their reference
    and no other; only [MONITOR_P_EXIT] is handed on to the queue. *)
Theorem do_deliver_monitor_removed mb a_msg (r : ref) :
  type a_msg = DEMONITOR_P \/ type a_msg = MONITOR_P_EXIT ->
  m_ref a_msg = inr r ->
  exists mb',
    do_deliver mb a_msg = Ret mb'
    /\ m_monitors mb' !! r = None
    /\ (forall r', r' <> r -> m_monitors mb' !! r' = m_monitors mb !! r')
    /\ m_links mb' = m_links mb
    /\ (type a_msg = DEMONITOR_P -> m_queue mb' = m_queue mb)
    /\ (type a_msg = MONITOR_P_EXIT -> m_queue mb' = m_queue mb ++ [a_msg]).
Proof.
  intros Hty Hr. unfold do_deliver, dispatch, get_ref. rewrite Hr.
  assert (forall mb' : mailbox eterm,
             m_monitors mb' = delete r (m_monitors mb) ->
             m_monitors mb' !! r = None
             /\ (forall r', r' <> r ->
                            m_monitors mb' !! r' = m_monitors mb !! r'))
    as Hdel.
  { intros mb' ->. split; [apply lookup_delete_eq|].
    intros r' Hne. by apply lookup_delete_ne. }
  destruct Hty as [Hty|Hty]; rewrite Hty; cbn; eexists;
    (split; [done|]); simpl.
  - destruct (Hdel (set_monitors mb (delete r (m_monitors mb))) eq_refl)
      as [H1 H2]. simpl in *. by repeat split.
  - destruct (Hdel (set_monitors mb (delete r (m_monitors mb))) eq_refl)
      as [H1 H2]. simpl in *. by repeat split.
Qed.

(** Closing twice: [close] stamps the mailbox with the time, empties the
    queue and keeps the pid; a second [close] finds no links and no
    monitors and sends nothing, it only deregisters again if told to. *)
Theorem close_twice mb now1 reason1 dereg1 now2 reason2 dereg2 :
  m_time_freed (close mb now1 reason1 dereg1) = now1
  /\ m_queue (close mb now1 reason1 dereg1) = []
  /\ self (close mb now1 reason1 dereg1) = self mb
  /\ calls (m_node (close (close mb now1 reason1 dereg1)
                          now2 reason2 dereg2))
     = calls (m_node (close mb now1 reason1 dereg1))
       ++ (if dereg2 then [call_close_mailbox (self mb)] else [])
  /\ m_time_freed (close (close mb now1 reason1 dereg1)
                         now2 reason2 dereg2) = now2.
Proof.
  assert (Hclose : forall (m : mailbox eterm) now reason dereg,
             m_time_freed (close m now reason dereg) = now
             /\ m_queue (close m now reason dereg) = []
             /\ self (close m now reason dereg) = self m
             /\ m_links (close m now reason dereg) = ∅
             /\ m_monitors (close m now reason dereg) = ∅).
  { intros m now reason dereg. unfold close. simpl.
    match goal with
    | |- m_time_freed (break_links ?x _) = _ /\ _ =>
        destruct (break_links_clears x reason)
          as (-> & -> & _ & -> & -> & ->)
    end.
    by destruct dereg. }
  destruct (Hclose mb now1 reason1 dereg1) as (Ht & Hq & Hself & Hl & Hm).
  split; [done|]. split; [done|]. split; [done|]. split.
  - set (mb1 := close mb now1 reason1 dereg1) in *. clearbody mb1.
    unfold close. simpl. rewrite break_links_calls. simpl.
    destruct dereg2; simpl; rewrite Hl, Hm, Hself;
      rewrite elements_empty, map_to_list_empty; simpl;
      by rewrite ?app_nil_r.
  - apply Hclose.
Qed.

(** What the wrapper of [async_receive] does with the message: it deletes
    it only after having called the handler with it, once, and then returns
    what the handler returned; with an error code set the handler is
    called with a null pointer only and nothing is deleted. *)
Theorem async_receive_handler_events mb h
    (p_msg : option (transport_msg eterm)) ec :
  (forall m, ev_delete m ∈ (async_receive_handler mb h p_msg ec).2 ->
     ec = false /\ p_msg = Some m
     /\ async_receive_handler mb h p_msg ec
        = (h mb (Some m), [ev_handler (Some m); ev_delete m]))
  /\ (ec = true ->
      async_receive_handler mb h p_msg ec = (false, [])
      \/ async_receive_handler mb h p_msg ec
         = (h mb None, [ev_handler None])).
Proof.
  unfold async_receive_handler.
  destruct (m_time_freed mb =? 0), ec, p_msg as [m0|]; simpl; split;
    try (intros m Hin); try (intros Hec);
    repeat match goal with
           | H : _ ∈ [] |- _ => by apply not_elem_of_nil in H
           | H : _ ∈ _ :: _ |- _ => apply elem_of_cons in H as [H|H]
           end;
    try discriminate; auto.
  injection Hin as ->. done.
Qed.

(** What the wrapper of [async_match] does: it returns [true] only without
    an error code, calls the timeout handler only with one and then returns
    [false], and runs the matcher only on the payload of the message it was
    given, which it deletes afterwards. *)
Theorem async_match_handler_events mb
    (p_msg : option (transport_msg eterm)) ec :
  ((async_match_handler mb p_msg ec).1 = true -> ec = false)
  /\ (ev_on_timeout ∈ (async_match_handler mb p_msg ec).2 ->
      ec = true /\ async_match_handler mb p_msg ec = (false, [ev_on_timeout]))
  /\ (forall x, ev_match x ∈ (async_match_handler mb p_msg ec).2 ->
        exists m, p_msg = Some m /\ x = msg m /\ ec = false
          /\ async_match_handler mb p_msg ec
             = (true, [ev_match (msg m); ev_delete m])).
Proof.
  unfold async_match_handler.
  destruct (m_time_freed mb =? 0), ec, p_msg as [m0|]; simpl;
    (split; [|split]); try done;
    try (intros x Hin); try (intros Hin);
    repeat match goal with
           | H : _ ∈ [] |- _ => by apply not_elem_of_nil in H
           | H : _ ∈ _ :: _ |- _ => apply elem_of_cons in H as [H|H]
           end;
    try discriminate; auto.
  injection Hin as ->. eauto.
Qed.

End mailbox_deliveries.

(** ** Further concrete instances *)

Lemma table_fc12_wf : atom_table_wf table_fc12.
Proof. solve_table_wf. Qed.

Lemma put_get_be_roundtrip_witness :
  5%nat = (3 + 2)%nat
  /\ length buf8_513 = length buf8
  /\ get_be 2 buf8_513 3 = Ret (513 mod 256 ^ Z.of_nat 2, 5%nat).
Proof.
  apply (put_get_be_roundtrip 2 buf8 3 513 buf8_513 5). reflexivity.
Defined.

Lemma put_be_frame_witness : buf8_513 !! 7%nat = buf8 !! 7%nat.
Proof.
  apply (put_be_frame 2 buf8 3 513 buf8_513 5 7); [reflexivity|].
  right. lia.
Defined.

Lemma get_put_be_roundtrip_witness :
  5%nat = (3 + 2)%nat
  /\ 0 <= 513 < 256 ^ Z.of_nat 2
  /\ put_be 2 buf8_513 3 513 = Ret (buf8_513, 5%nat).
Proof.
  apply (get_put_be_roundtrip 2 buf8_513 3 513 5). reflexivity.
Defined.

Lemma atom_lt_strict_weak_order_witness :
  atom_lt table_abd (mk_atom 0) (mk_atom 2) = true.
Proof.
  apply (proj1 (proj2 (proj2 (atom_lt_strict_weak_order table_abd)))
           (mk_atom 0) (mk_atom 1) (mk_atom 2)); reflexivity.
Defined.

Lemma compare_agrees_with_lt_witness :
  compare table_abd (mk_atom 1) (mk_atom 2) < 0.
Proof.
  apply (proj1 (proj2 (compare_agrees_with_lt table_abd (mk_atom 1)
                         (mk_atom 2)))).
  reflexivity.
Defined.

Lemma atom_eq_cstr_iff_witness :
  atom_eq_cstr table_abc (mk_atom 1) bytes_abc = true.
Proof.
  apply (proj1 (atom_eq_cstr_iff table_abc (mk_atom 1) bytes_abc)).
  reflexivity.
Defined.

Lemma atom_of_string_roundtrip_witness :
  atom_table_wf table_abc
  /\ atom_valid table_abc (mk_atom 1)
  /\ to_string table_abc (mk_atom 1) = bytes_abc
  /\ atom_size table_abc (mk_atom 1) = length bytes_abc
  /\ (atom_empty (mk_atom 1) = true <-> bytes_abc = [])
  /\ (forall b, atom_valid (atom_table_new 16) b ->
                atom_valid table_abc b
                /\ to_string table_abc b
                   = to_string (atom_table_new 16) b).
Proof.
  apply (atom_of_string_roundtrip (atom_table_new 16) bytes_abc (mk_atom 1)
           table_abc (atom_table_new_wf 16)).
  reflexivity.
Defined.

Lemma atom_of_cstr_nul_free_witness :
  to_string table_a (mk_atom 1) = cstr bytes_a0b
  /\ (NUL ∉ to_string table_a (mk_atom 1))
  /\ atom_eq_cstr table_a (mk_atom 1) bytes_a0b = true
  /\ atom_ne_cstr table_a (mk_atom 1) bytes_a0b = false.
Proof.
  apply (atom_of_cstr_nul_free (atom_table_new 16) bytes_a0b (mk_atom 1)
           table_a (atom_table_new_wf 16)).
  reflexivity.
Defined.

Lemma atom_empty_iff_witness :
  (atom_empty (mk_atom 1) = true <-> atom_size table_abc (mk_atom 1) = 0%nat)
  /\ (atom_empty (mk_atom 1) = true <-> atom_eq (mk_atom 1) atom_null = true).
Proof.
  apply (atom_empty_iff table_abc (mk_atom 1) table_abc_wf).
  unfold atom_valid. simpl. lia.
Defined.

Lemma atom_decode_bad_tag_witness :
  atom_decode table_abc buf8 0
  = Throw (err_decode_exception "Error decoding atom" 0).
Proof.
  apply (atom_decode_bad_tag table_abc buf8 0 x00); [reflexivity|..];
    vm_compute; discriminate.
Defined.

Lemma atom_decode_wire_forms_witness :
  atom_decode (atom_table_new 16)
    ([] ++ be_bytes 1 ERL_ATOM_EXT
        ++ be_bytes 2 (Z.of_nat (length bytes_abc)) ++ bytes_abc ++ [])
    (length (@nil byte))
  = Ret (mk_atom 1, (length (@nil byte) + 3 + length bytes_abc)%nat,
         table_abc)
  /\ atom_decode (atom_table_new 16)
       ([] ++ be_bytes 1 ERL_SMALL_ATOM_EXT
           ++ be_bytes 1 (Z.of_nat (length bytes_abc)) ++ bytes_abc ++ [])
       (length (@nil byte))
     = Ret (mk_atom 1, (length (@nil byte) + 2 + length bytes_abc)%nat,
            table_abc).
Proof.
  apply (atom_decode_wire_forms (atom_table_new 16) [] bytes_abc [] 1
           table_abc).
  reflexivity.
Defined.

Lemma atom_decode_encode_roundtrip_witness :
  atom_decode (atom_table_new 16) buf_abc_ext 0
  = Ret (mk_atom 1, 6%nat, table_abc)
  /\ encode table_abc (mk_atom 1) buf_abc_ext 0 = Ret (buf_abc_ext, 6%nat).
Proof.
  assert (Hdec : atom_decode (atom_table_new 16) buf_abc_ext 0
                 = Ret (mk_atom 1, 6%nat, table_abc)) by reflexivity.
  split; [exact Hdec|].
  destruct (atom_decode_encode_roundtrip (atom_table_new 16) buf_abc_ext 0
              (mk_atom 1) 6 table_abc (atom_table_new_wf 16) Hdec)
    as (_ & _ & _ & Hb).
  destruct (Hb x64 eq_refl) as [Henc _].
  exact (proj2 (Henc eq_refl)).
Defined.

Lemma make_node_name_result_witness :
  to_string table_fc12 (mk_atom 1) = bytes_abc_fc12
  /\ (1 <= atom_size table_fc12 (mk_atom 1) <= MAXNODELEN)%nat
  /\ atom_empty (mk_atom 1) = false
  /\ head bytes_abc_fc12 <> Some AT_SIGN
  /\ atom_table_wf table_fc12
  /\ check_node_length (atom_size table_fc12 (mk_atom 1)) = Ret tt.
Proof.
  apply (make_node_name_result (atom_table_new 16) bytes_abc_fc12
           (mk_atom 1) table_fc12 (atom_table_new_wf 16)).
  reflexivity.
Defined.

Lemma dump_quoting_witness :
  dump true table_abc (mk_atom 1) = cstr (to_string table_abc (mk_atom 1)).
Proof.
  apply (proj2 (proj2 (dump_quoting true table_abc (mk_atom 1)))).
  split; [reflexivity|]. split; [by vm_compute|].
  change (SPACE ∉ bytes_abc). unfold bytes_abc.
  rewrite !not_elem_of_cons. repeat split; try done. apply not_elem_of_nil.
Defined.

Lemma port_lt_strict_weak_order_witness :
  port.lt table_abd port_abc port_abd = false.
Proof.
  apply (proj1 (proj2 (port_lt_strict_weak_order table_abd))
           port_abd port_abc).
  reflexivity.
Defined.

Lemma port_eq_equivalence_witness : port.eq port_abc port_abc = true.
Proof.
  apply (proj1 (proj2 (proj2 port_eq_equivalence))
           port_abc port_abc port_abc); reflexivity.
Defined.

Lemma port_of_atom_not_null_witness :
  port_abc = port.init (mk_atom 1) 1 (to_uint8 0)
  /\ port.node port_abc = mk_atom 1
  /\ (1 <= atom_size table_abc (mk_atom 1) <= MAXNODELEN)%nat
  /\ atom_empty (mk_atom 1) = false
  /\ port.eq port_abc port.null = false
  /\ port.eq port.null port_abc = false.
Proof.
  assert (atom_valid table_abc (mk_atom 1)) as Hval
    by (unfold atom_valid; simpl; lia).
  apply (proj2 (port_of_atom_not_null table_abc (mk_atom 1) 1 0
                  table_abc_wf Hval) port_abc).
  reflexivity.
Defined.

Lemma port_of_cstr_result_witness :
  atom_table_wf table_fc12
  /\ atom_valid table_fc12 (port.node port_fc12)
  /\ to_string table_fc12 (port.node port_fc12) = cstr bytes_abc_fc12
  /\ (NUL ∉ to_string table_fc12 (port.node port_fc12))
  /\ (1 <= atom_size table_fc12 (port.node port_fc12) <= MAXNODELEN)%nat
  /\ port.eq port_fc12 port.null = false.
Proof.
  apply (port_of_cstr_result (atom_table_new 16) bytes_abc_fc12 1 4
           port_fc12 table_fc12 (atom_table_new_wf 16)).
  reflexivity.
Defined.

Lemma port_of_cstr_trichotomy_witness :
  exactly_one (port.lt table_fc12_abc port_fc12 port_fc12_abc)
              (port.lt table_fc12_abc port_fc12_abc port_fc12)
              (port.eq port_fc12 port_fc12_abc).
Proof.
  apply (port_of_cstr_trichotomy (atom_table_new 16)
           bytes_abc_fc12 1 4 port_fc12 table_fc12
           bytes_abc 1 0 port_fc12_abc table_fc12_abc
           (atom_table_new_wf 16)); reflexivity.
Defined.

Lemma port_init_canonical_witness :
  port.init (mk_atom 1) (2 ^ 28 + 1) (to_uint8 4)
  = port.init (mk_atom 1) 1 (to_uint8 0).
Proof.
  apply (proj1 (proj2 (proj2 (port_init_canonical (mk_atom 1) 1 0)))
           (2 ^ 28 + 1) 4); reflexivity.
Defined.

Lemma do_deliver_queue_discipline_witness :
  (m_queue (push_back mbox_x (set_error_flag msg_no_sender)) = m_queue mbox_x
   \/ m_queue (push_back mbox_x (set_error_flag msg_no_sender))
      = m_queue mbox_x ++ [msg_no_sender]
   \/ m_queue (push_back mbox_x (set_error_flag msg_no_sender))
      = m_queue mbox_x ++ [set_error_flag msg_no_sender])
  /\ self (push_back mbox_x (set_error_flag msg_no_sender)) = self mbox_x
  /\ m_name (push_back mbox_x (set_error_flag msg_no_sender)) = m_name mbox_x
  /\ m_time_freed (push_back mbox_x (set_error_flag msg_no_sender))
     = m_time_freed mbox_x
  /\ m_node (push_back mbox_x (set_error_flag msg_no_sender)) = m_node mbox_x.
Proof.
  apply (do_deliver_queue_discipline mbox_x msg_no_sender). reflexivity.
Defined.

Lemma do_deliver_control_dropped_witness :
  exists mb', do_deliver mbox_x msg_link = Ret mb'
              /\ m_queue mb' = m_queue mbox_x.
Proof.
  apply (do_deliver_control_dropped mbox_x msg_link pid_x ref_r);
    [by left|reflexivity..].
Defined.

Lemma do_deliver_link_unlink_witness :
  exists mb1 mb2,
    do_deliver mbox_x msg_link = Ret mb1
    /\ m_links mb1 = {[pid_x]} ∪ m_links mbox_x
    /\ do_deliver mb1 msg_unlink = Ret mb2
    /\ m_links mb2 = m_links mbox_x ∖ {[pid_x]}
    /\ (pid_x ∉ m_links mb2)
    /\ m_monitors mb2 = m_monitors mbox_x
    /\ m_queue mb2 = m_queue mbox_x.
Proof.
  apply (do_deliver_link_unlink mbox_x msg_link msg_unlink pid_x);
    reflexivity.
Defined.

Lemma do_deliver_monitor_first_wins_witness :
  exists mb',
    do_deliver mbox_x msg_monitor = Ret mb'
    /\ (m_monitors mbox_x !! ref_r = None ->
        m_monitors mb' !! ref_r = Some pid_x)
    /\ (forall p, m_monitors mbox_x !! ref_r = Some p ->
                  m_monitors mb' = m_monitors mbox_x)
    /\ (forall r', r' <> ref_r ->
                   m_monitors mb' !! r' = m_monitors mbox_x !! r')
    /\ m_links mb' = m_links mbox_x
    /\ m_queue mb' = m_queue mbox_x.
Proof.
  apply (do_deliver_monitor_first_wins mbox_x msg_monitor ref_r pid_x);
    reflexivity.
Defined.

Lemma do_deliver_monitor_removed_witness :
  exists mb',
    do_deliver mbox_x msg_demonitor = Ret mb'
    /\ m_monitors mb' !! ref_r = None
    /\ (forall r', r' <> ref_r ->
                   m_monitors mb' !! r' = m_monitors mbox_x !! r')
    /\ m_links mb' = m_links mbox_x
    /\ (type msg_demonitor = DEMONITOR_P -> m_queue mb' = m_queue mbox_x)
    /\ (type msg_demonitor = MONITOR_P_EXIT ->
        m_queue mb' = m_queue mbox_x ++ [msg_demonitor]).
Proof.
  apply (do_deliver_monitor_removed mbox_x msg_demonitor ref_r);
    [by left|reflexivity].
Defined.

Lemma do_deliver_exit2_witness :
  exists mb', do_deliver mbox_x msg_exit2 = Ret mb'
    /\ m_links mb' = m_links mbox_x ∖ {[pid_y]}
    /\ m_queue mb' = m_queue mbox_x ++ [msg_exit2].
Proof.
  apply (do_deliver_exit2 mbox_x msg_exit2 pid_y); [by left|reflexivity].
Defined.

Lemma close_twice_witness :
  calls (m_node (close (close mbox_x 5 3%nat true) 6 4%nat false))
  = calls (m_node (close mbox_x 5 3%nat true)) ++ [].
Proof.
  exact (proj1 (proj2 (proj2 (proj2
           (close_twice mbox_x 5 3%nat true 6 4%nat false))))).
Defined.

Lemma async_receive_handler_events_witness :
  false = false /\ Some msg_link = Some msg_link
  /\ async_receive_handler mbox_freed (fun _ _ => true) (Some msg_link) false
     = (true, [ev_handler (Some msg_link); ev_delete msg_link]).
Proof.
  apply (proj1 (async_receive_handler_events mbox_freed (fun _ _ => true)
                  (Some msg_link) false) msg_link).
  simpl. apply elem_of_cons. right. apply elem_of_cons. by left.
Defined.

Lemma async_match_handler_events_witness :
  exists m, Some msg_link = Some m /\ msg msg_link = msg m /\ false = false
    /\ async_match_handler mbox_freed (Some msg_link) false
       = (true, [ev_match (msg m); ev_delete m]).
Proof.
  apply (proj2 (proj2 (async_match_handler_events mbox_freed
                         (Some msg_link) false)) (msg msg_link)).
  simpl. apply elem_of_cons. by left.
Defined.
